(** * Payroll record manager: validators, employee variants, registry, report

    A shallow embedding of [Sahagun-abstraction-and-encapsulation.cpp].

    - [std::string] is [string]; a line read by [getline] is one [string].
    - [int] is a [Z] in the range [INT_MIN .. INT_MAX]; [std::stoi] raises
      [out_of_range] outside of it.
    - [double] is IEEE 754 binary64, given by the Standard Library's
      [spec_float] with precision 53 and [emax] 1024; [*] is [SFmul] and
      [std::stod] rounds the decimal text to the nearest double.
    - A C++ exception is a value of [thrown]; one that nobody catches ends
      the program ([Terminated]).
    - [cin] and [cout] are threaded explicitly: the lines still to be read
      and the sequence of values inserted into the output stream. *)

From Stdlib Require Import ZArith List Bool Ascii String Lia SpecFloat.
Import ListNotations.

Local Open Scope string_scope.
Local Open Scope Z_scope.
Local Open Scope list_scope.

(** ** Machine numbers *)

Definition INT_MAX : Z := 2147483647.
Definition INT_MIN : Z := -2147483648.

Definition in_int_range (v : Z) : bool := (INT_MIN <=? v) && (v <=? INT_MAX).

Definition double : Type := spec_float.

Definition prec : Z := 53.
Definition emax : Z := 1024.

Definition dzero : double := S754_zero false.
Definition dmul (x y : double) : double := SFmul prec emax x y.
Definition dlt (x y : double) : bool := SFltb x y.
Definition dle (x y : double) : bool := SFleb x y.
Definition deq (x y : double) : bool := SFeqb x y.

(** The implicit conversion [int -> double] (exact: 31 bits fit in 53). *)
Definition double_of_int (n : Z) : double := binary_normalize prec emax n 0 false.

(** The double nearest to [n / 10^k] (ties to even), or an infinity when
    that is beyond the largest finite double. *)
Definition nearest_decimal (n : Z) (k : nat) : double :=
  match n with
  | Zpos p =>
      SFdiv prec emax (S754_finite false p 0)
                      (S754_finite false (Z.to_pos (10 ^ Z.of_nat k)) 0)
  | _ => dzero
  end.

Definition is_infinite (x : double) : bool :=
  match x with
  | S754_infinity _ => true
  | _ => false
  end.

(** ** Exceptions *)

Inductive exception : Type := invalid_argument | out_of_range.

Inductive thrown (A : Type) : Type :=
| Normal (a : A)
| Raise (e : exception).

Arguments Normal {A} a.
Arguments Raise {A} e.

(** ** Characters *)

Definition code (c : ascii) : N := N_of_ascii c.

Definition isspace (c : ascii) : bool :=
  ((code c =? 32) || ((9 <=? code c) && (code c <=? 13)))%N.

Definition isdigit (c : ascii) : bool :=
  ((48 <=? code c) && (code c <=? 57))%N.

Definition isalpha (c : ascii) : bool :=
  (((65 <=? code c) && (code c <=? 90)) || ((97 <=? code c) && (code c <=? 122)))%N.

Definition isalnum (c : ascii) : bool := isalpha c || isdigit c.

Definition digit_value (c : ascii) : Z := Z.of_N (code c) - 48.

(** [input.find(' ') != string::npos] *)
Fixpoint has_space (s : string) : bool :=
  match s with
  | EmptyString => false
  | String c s' => Ascii.eqb c " " || has_space s'
  end.

(** [s.empty()] *)
Definition empty (s : string) : bool :=
  match s with
  | EmptyString => true
  | String _ _ => false
  end.

(** ** The library conversions [std::stoi] and [std::stod] *)

Fixpoint skip_space (s : string) : string :=
  match s with
  | String c s' => if isspace c then skip_space s' else s
  | EmptyString => s
  end.

(** Consumes the longest prefix of digits, folding it into the accumulator
    in base 10, and gives back what is left unconverted. *)
Fixpoint scan_digits (acc : Z) (s : string) : Z * string :=
  match s with
  | String c s' =>
      if isdigit c then scan_digits (10 * acc + digit_value c) s' else (acc, s)
  | EmptyString => (acc, s)
  end.

Definition starts_with_digit (s : string) : bool :=
  match s with
  | String c _ => isdigit c
  | EmptyString => false
  end.

(** [std::stoi(str, &pos)] in base 10, after [strtol]: leading white space
    is skipped, one sign is taken, then the longest run of digits.  No digit
    at that point is [invalid_argument]; a value that does not fit an [int]
    is [out_of_range].  [pos] is the number of characters consumed. *)
Definition stoi (str : string) : thrown (Z * nat) :=
  let s1 := skip_space str in
  let '(neg, s2) :=
    match s1 with
    | String c t =>
        if Ascii.eqb c "-" then (true, t)
        else if Ascii.eqb c "+" then (false, t)
        else (false, s1)
    | EmptyString => (false, s1)
    end in
  if starts_with_digit s2 then
    let '(v, rest) := scan_digits 0 s2 in
    let v := if neg then - v else v in
    if in_int_range v
    then Normal (v, (length str - length rest)%nat)
    else Raise out_of_range
  else Raise invalid_argument.

(** What [strtod] hands to [stod]: the rounded value, or [ERANGE]. *)
Definition stod_result (x : double) : thrown double :=
  if is_infinite x then Raise out_of_range else Normal x.

(** [std::stod(str)] on a text that starts with a digit, which is all the
    program ever passes to it (the call is guarded by [regex_match]): the
    digits, an optional point and the digits after it are read, the value is
    rounded to the nearest double, and a value too large for a finite double
    is [out_of_range] ([strtod] reports [ERANGE]).  Text after the number is
    ignored, since no [pos] is asked for. *)
Definition stod (str : string) : thrown double :=
  if starts_with_digit str then
    let '(ip, r1) := scan_digits 0 str in
    let '(n, k) :=
      match r1 with
      | String c t =>
          if Ascii.eqb c "." then
            let '(n, r2) := scan_digits ip t in (n, (length t - length r2)%nat)
          else (ip, 0%nat)
      | EmptyString => (ip, 0%nat)
      end in
    stod_result (nearest_decimal n k)
  else Raise invalid_argument.

(** ** Regular expressions

    The two patterns of the program use character classes, concatenation,
    [+], [?] and [{1,2}].  [regex_match] succeeds when the whole text is in
    the language, which is why the anchors [^] and [$] of the patterns add
    nothing and are not represented.  Matching is by derivatives. *)

Inductive regex : Type :=
| Void
| Eps
| Class (p : ascii -> bool)
| Cat (r1 r2 : regex)
| Alt (r1 r2 : regex)
| Star (r : regex).

Definition Plus (r : regex) : regex := Cat r (Star r).
Definition Opt (r : regex) : regex := Alt r Eps.
(** [r{1,2}] *)
Definition Rep12 (r : regex) : regex := Cat r (Opt r).
Definition Chr (c : ascii) : regex := Class (Ascii.eqb c).

Fixpoint nullable (r : regex) : bool :=
  match r with
  | Void => false
  | Eps => true
  | Class _ => false
  | Cat r1 r2 => nullable r1 && nullable r2
  | Alt r1 r2 => nullable r1 || nullable r2
  | Star _ => true
  end.

Fixpoint deriv (c : ascii) (r : regex) : regex :=
  match r with
  | Void => Void
  | Eps => Void
  | Class p => if p c then Eps else Void
  | Cat r1 r2 =>
      if nullable r1
      then Alt (Cat (deriv c r1) r2) (deriv c r2)
      else Cat (deriv c r1) r2
  | Alt r1 r2 => Alt (deriv c r1) (deriv c r2)
  | Star r1 => Cat (deriv c r1) (Star r1)
  end.

Fixpoint matches (r : regex) (s : list ascii) : bool :=
  match s with
  | [] => nullable r
  | c :: s' => matches (deriv c r) s'
  end.

Definition regex_match (input : string) (r : regex) : bool :=
  matches r (list_ascii_of_string input).

(** ["^\d+(\.\d{1,2})?$"] *)
Definition decimalRegex : regex :=
  Cat (Plus (Class isdigit)) (Opt (Cat (Chr ".") (Rep12 (Class isdigit)))).

(** ["^[a-zA-Z0-9]+$"] *)
Definition idRegex : regex := Plus (Class isalnum).

(** ** Validators

    Each validator of the program returns [bool] and writes the converted
    value through a reference.  Every caller reads that reference only after
    [true], so a validator is modelled by the [option] of the value: [Some v]
    for [true] with [v] stored, [None] for [false]. *)

Definition isValidInteger (input : string) : option Z :=
  match stoi input with
  | Normal (v, pos) => if Nat.eqb pos (length input) then Some v else None
  | Raise _ => None
  end.

Definition isValidMenuNumber (input : string) (min max : Z) : option Z :=
  if has_space input then None
  else
    match isValidInteger input with
    | Some output => if (min <=? output) && (output <=? max) then Some output else None
    | None => None
    end.

(** [isValidDecimal] has no handler: what [stod] raises leaves the function. *)
Definition isValidDecimal (input : string) : thrown (option double) :=
  if regex_match input decimalRegex then
    match stod input with
    | Normal output => Normal (Some output)
    | Raise e => Raise e
    end
  else Normal None.

Definition isValidID (id : string) : bool :=
  if has_space id then false else regex_match id idRegex.

(** ** The console

    [cout] is the sequence of values inserted with [<<], oldest first; how a
    [double] is printed is left to the stream.  [cin] holds the lines the
    operator has entered and the program has not read yet. *)

Inductive item : Type :=
| Text (s : string)
| Num (d : double)
| Int (n : Z)
| Endl.

Record console : Type := { cin : list string; cout : list item }.

(** How a piece of the program ends: it returns, it waits in [getline] for a
    line the operator has not entered yet, or an exception nobody caught has
    ended the program.  The console is one that stays open: [Blocked] is the
    program waiting for the next line.  What the program does once standard
    input is closed (the source never tests the stream, so its loops run on
    with empty or stale texts) is not described. *)
Inductive run (A : Type) : Type :=
| Done (a : A) (w : console)
| Blocked (w : console)
| Terminated (w : console).

Arguments Done {A} a w.
Arguments Blocked {A} w.
Arguments Terminated {A} w.

Definition M (A : Type) : Type := console -> run A.

Definition ret {A} (a : A) : M A := fun w => Done a w.

Definition bind {A B} (m : M A) (k : A -> M B) : M B :=
  fun w =>
    match m w with
    | Done a w' => k a w'
    | Blocked w' => Blocked w'
    | Terminated w' => Terminated w'
    end.

Notation "x <- m ;; k" := (bind m (fun x => k))
  (at level 61, m at next level, right associativity).
Notation "m ;;; k" := (bind m (fun _ => k))
  (at level 61, right associativity).

(** [cout << ...] *)
Definition print (items : list item) : M unit :=
  fun w => Done tt {| cin := cin w; cout := cout w ++ items |}.

(** What one pass through a prompting loop decides about the line read. *)
Inductive verdict (A : Type) : Type :=
| Accept (a : A)
| Retry (diagnostic : list item)
| Uncaught.

Arguments Accept {A} a.
Arguments Retry {A} diagnostic.
Arguments Uncaught {A}.

(** [while (!validInput) { cout << prompt; getline(cin, input); ... }]:
    the loop shared by the four prompting helpers.  It has no retry limit. *)
Fixpoint prompt_loop {A} (prompt : string) (body : string -> verdict A)
    (lines : list string) (out : list item) : run A :=
  match lines with
  | [] => Blocked {| cin := []; cout := out ++ [Text prompt] |}
  | input :: lines' =>
      match body input with
      | Accept a => Done a {| cin := lines'; cout := out ++ [Text prompt] |}
      | Retry diagnostic =>
          prompt_loop prompt body lines' ((out ++ [Text prompt]) ++ diagnostic)
      | Uncaught => Terminated {| cin := lines'; cout := out ++ [Text prompt] |}
      end
  end.

Definition prompting {A} (prompt : string) (body : string -> verdict A) : M A :=
  fun w => prompt_loop prompt body (cin w) (cout w).

(** ** Employee variants *)

Inductive Employee : Type :=
| FullTimeEmployee (id name : string) (salary : double)
| PartTimeEmployee (id name : string) (hourlyWage hoursWorked : double)
| ContractualEmployee (id name : string) (paymentPerProject : double)
    (projectsCompleted : Z).

Definition getId (emp : Employee) : string :=
  match emp with
  | FullTimeEmployee id _ _ => id
  | PartTimeEmployee id _ _ _ => id
  | ContractualEmployee id _ _ _ => id
  end.

Definition getName (emp : Employee) : string :=
  match emp with
  | FullTimeEmployee _ name _ => name
  | PartTimeEmployee _ name _ _ => name
  | ContractualEmployee _ name _ _ => name
  end.

Definition calculateSalary (emp : Employee) : double :=
  match emp with
  | FullTimeEmployee _ _ salary => salary
  | PartTimeEmployee _ _ hourlyWage hoursWorked => dmul hourlyWage hoursWorked
  | ContractualEmployee _ _ paymentPerProject projectsCompleted =>
      dmul paymentPerProject (double_of_int projectsCompleted)
  end.

Module Emp.

Definition heading (emp : Employee) : list item :=
  [Text "Employee: "; Text (getName emp); Text " (ID: "; Text (getId emp);
   Text ")"; Endl].

(** The virtual [displayPayrollReport] of the three classes. *)
Definition displayPayrollReport (emp : Employee) : list item :=
  match emp with
  | FullTimeEmployee _ _ salary =>
      heading emp ++ [Text "Fixed Monthly Salary: $"; Num salary; Endl]
  | PartTimeEmployee _ _ hourlyWage hoursWorked =>
      heading emp
      ++ [Text "Hourly Wage: $"; Num hourlyWage; Endl]
      ++ [Text "Hours Worked: "; Num hoursWorked; Endl]
      ++ [Text "Total Salary: $"; Num (calculateSalary emp); Endl]
  | ContractualEmployee _ _ paymentPerProject projectsCompleted =>
      heading emp
      ++ [Text "Contract Payment Per Project: $"; Num paymentPerProject; Endl]
      ++ [Text "Projects Completed: "; Int projectsCompleted; Endl]
      ++ [Text "Total Salary: $"; Num (calculateSalary emp); Endl]
  end.

End Emp.


(** ** PayrollSystem

    The member [employees] is passed in, and returned by the functions that
    change it. *)

Definition isIdUnique (employees : list Employee) (id : string) : bool :=
  negb (existsb (fun emp => String.eqb (getId emp) id) employees).

Definition getEmployeeId (employees : list Employee) : M string :=
  prompting "Enter Employee ID: " (fun id =>
    if empty id then
      Retry [Text "ID cannot be empty. Please try again."; Endl]
    else if negb (isValidID id) then
      Retry [Text "Invalid ID format! ID must contain only alphanumeric characters: ID must contain only letters and numbers with no spaces or special characters."; Endl]
    else if negb (isIdUnique employees id) then
      Retry [Text "Duplicate ID! Please enter a unique ID."; Endl]
    else Accept id).

Definition getEmployeeName : M string :=
  prompting "Enter Employee Name: " (fun name =>
    if negb (empty name) then Accept name
    else Retry [Text "Name cannot be empty. Please try again."; Endl]).

Definition getValidDecimalInput (prompt : string) : M double :=
  prompting prompt (fun input =>
    match isValidDecimal input with
    | Normal (Some value) =>
        if dlt dzero value then Accept value
        else Retry [Text "Value must be greater than zero. Please try again."; Endl]
    | Normal None => Retry [Text "Invalid format. Please enter a valid number."; Endl]
    | Raise _ => Uncaught
    end).

Definition getValidNumericInput (prompt : string) : M Z :=
  prompting prompt (fun input =>
    match isValidInteger input with
    | Some value =>
        if 0 <=? value then Accept value
        else Retry [Text "Value cannot be negative. Please try again."; Endl]
    | None => Retry [Text "Invalid input. Please enter a valid number."; Endl]
    end).

Definition addFullTimeEmployee (employees : list Employee) : M (list Employee) :=
  id <- getEmployeeId employees ;;
  name <- getEmployeeName ;;
  salary <- getValidDecimalInput "Enter Monthly Salary: $" ;;
  print [Text "Full-time employee added successfully!"; Endl] ;;;
  ret (employees ++ [FullTimeEmployee id name salary]).

Definition addPartTimeEmployee (employees : list Employee) : M (list Employee) :=
  id <- getEmployeeId employees ;;
  name <- getEmployeeName ;;
  hourlyWage <- getValidDecimalInput "Enter Hourly Wage: $" ;;
  hoursWorked <- getValidDecimalInput "Enter Number of Hours Worked: " ;;
  print [Text "Part-time employee added successfully!"; Endl] ;;;
  ret (employees ++ [PartTimeEmployee id name hourlyWage hoursWorked]).

Definition addContractualEmployee (employees : list Employee) : M (list Employee) :=
  id <- getEmployeeId employees ;;
  name <- getEmployeeName ;;
  paymentPerProject <- getValidDecimalInput "Enter Payment Per Project: $" ;;
  projectsCompleted <- getValidNumericInput "Enter Number of Projects Completed: " ;;
  print [Text "Contractual employee added successfully!"; Endl] ;;;
  ret (employees ++ [ContractualEmployee id name paymentPerProject projectsCompleted]).

(** The range-for of the report: each record's own block, then [endl]. *)
Fixpoint report_loop (employees : list Employee) (out : list item) : list item :=
  match employees with
  | [] => out
  | emp :: rest => report_loop rest ((out ++ Emp.displayPayrollReport emp) ++ [Endl])
  end.

Definition displayPayrollReport (employees : list Employee) : M unit :=
  fun w =>
    match employees with
    | [] =>
        Done tt {| cin := cin w;
                   cout := cout w ++ [Text "No employees to display."; Endl] |}
    | _ :: _ =>
        Done tt {| cin := cin w;
                   cout := report_loop employees
                             (cout w ++ [Text "------ Employee Payroll Report ------"; Endl]) |}
    end.

(** ** The menu driver *)

Definition nl : string := String (ascii_of_nat 10) "".

Definition menu : list item :=
  [Text (nl ++ "=============================" ++ nl)%string;
   Text ("    PAYROLL SYSTEM MENU    " ++ nl)%string;
   Text ("=============================" ++ nl)%string;
   Text ("[1] Full-time Employee" ++ nl)%string;
   Text ("[2] Part-time Employee" ++ nl)%string;
   Text ("[3] Contractual Employee" ++ nl)%string;
   Text ("[4] Display Payroll Report" ++ nl)%string;
   Text ("[5] Exit" ++ nl)%string;
   Text ("=============================" ++ nl)%string;
   Text "Enter your choice: "].

Definition getline : M string :=
  fun w =>
    match cin w with
    | [] => Blocked w
    | line :: rest => Done line {| cin := rest; cout := cout w |}
    end.

(** The body of the [do ... while] of [main], with the value of its
    condition [choice != "5"]. *)
Definition main_iteration (employees : list Employee) : M (list Employee * bool) :=
  print menu ;;;
  choice <- getline ;;
  employees' <-
    match isValidMenuNumber choice 1 5 with
    | Some option =>
        match option with
        | 1 => addFullTimeEmployee employees
        | 2 => addPartTimeEmployee employees
        | 3 => addContractualEmployee employees
        | 4 => displayPayrollReport employees ;;; ret employees
        | 5 => print [Text "Exiting program. Goodbye!"; Endl] ;;; ret employees
        | _ => ret employees
        end
    | None =>
        print [Text "Invalid choice. Please enter a number between 1 and 5."; Endl] ;;;
        ret employees
    end ;;
  ret (employees', negb (String.eqb choice "5")).

(** The loop of [main].  Every pass reads a line, so [fuel] beyond the
    number of lines entered is never used up ([main_returns]). *)
Fixpoint main_loop (fuel : nat) (employees : list Employee) (w : console)
  : option (run Z) :=
  match fuel with
  | O => None
  | S fuel' =>
      match main_iteration employees w with
      | Done (employees', again) w' =>
          if again then main_loop fuel' employees' w' else Some (Done 0 w')
      | Blocked w' => Some (Blocked w')
      | Terminated w' => Some (Terminated w')
      end
  end.

Definition main (lines : list string) : option (run Z) :=
  main_loop (S (List.length lines)) [] {| cin := lines; cout := [] |}.

(** ** The specification's vocabulary

    These definitions follow the words of the specification, not the code;
    the theorems below compare the two. *)

Fixpoint all_digits (s : string) : bool :=
  match s with
  | EmptyString => true
  | String c s' => isdigit c && all_digits s'
  end.

(** "one or more digits" *)
Definition digits1 (s : string) : bool := negb (empty s) && all_digits s.

(** The number a run of digits denotes in base 10. *)
Fixpoint digits_value (s : string) : Z :=
  match s with
  | EmptyString => 0
  | String c s' => digit_value c * 10 ^ Z.of_nat (length s') + digits_value s'
  end.

(** "an optional sign followed by one or more digits with no other
    characters" *)
Definition integer_literal (T : string) : bool :=
  match T with
  | String c t => if Ascii.eqb c "-" || Ascii.eqb c "+" then digits1 t else digits1 T
  | EmptyString => false
  end.

Definition literal_value (T : string) : Z :=
  match T with
  | String c t =>
      if Ascii.eqb c "-" then - digits_value t
      else if Ascii.eqb c "+" then digits_value t
      else digits_value T
  | EmptyString => 0
  end.

(** "one or more digits, optionally followed by a decimal point and one or
    two digits" *)
Definition decimal_shape (T : string) : Prop :=
  exists ip : string,
    digits1 ip = true /\
    (T = ip \/
     exists fp : string,
       digits1 fp = true /\ (length fp <= 2)%nat /\ T = (ip ++ "." ++ fp)%string).

(** "non-empty, contains no whitespace, and consists solely of ASCII letters
    and digits" *)
Fixpoint all_alnum (s : string) : bool :=
  match s with
  | EmptyString => true
  | String c s' => isalnum c && all_alnum s'
  end.

Definition validateId_spec (text : string) : bool :=
  negb (empty text) && all_alnum text.

(** The number a matching text denotes is [digits_value (ip ++ fp)]
    divided by [10 ^ length fp]; [decimal_value] is the double nearest to it. *)
Definition decimal_value (ip fp : string) : double :=
  nearest_decimal (digits_value (ip ++ fp)) (length fp).

(** ** Registry states and their invariants *)

(** The registry starts empty and changes only through the three [add]
    operations, each run on some console until it returns. *)
Inductive reachable : list Employee -> Prop :=
| reach_start : reachable []
| reach_full employees w employees' w' :
    reachable employees ->
    addFullTimeEmployee employees w = Done employees' w' ->
    reachable employees'
| reach_part employees w employees' w' :
    reachable employees ->
    addPartTimeEmployee employees w = Done employees' w' ->
    reachable employees'
| reach_contractual employees w employees' w' :
    reachable employees ->
    addContractualEmployee employees w = Done employees' w' ->
    reachable employees'.

(** [0 < x] for every decimal field of the record. *)
Definition decimals_positive (emp : Employee) : bool :=
  match emp with
  | FullTimeEmployee _ _ salary => dlt dzero salary
  | PartTimeEmployee _ _ hourlyWage hoursWorked =>
      dlt dzero hourlyWage && dlt dzero hoursWorked
  | ContractualEmployee _ _ paymentPerProject _ => dlt dzero paymentPerProject
  end.

(** A positive finite double with a full 53-bit mantissa and an exponent of
    at least [lo]: a normal number that is not tiny. *)
Definition sizeable (lo : Z) (x : double) : Prop :=
  exists m e, x = S754_finite false m e /\ 2 ^ 52 <= Z.pos m /\ lo <= e.

(** What the prompts guarantee of a stored record: every decimal field is at
    least [2 ^ (-7)] (an accepted text denotes at least [0.01]), and the
    number of projects is not negative. *)
Definition well_formed (emp : Employee) : Prop :=
  match emp with
  | FullTimeEmployee _ _ salary => sizeable (-59) salary
  | PartTimeEmployee _ _ hourlyWage hoursWorked =>
      sizeable (-59) hourlyWage /\ sizeable (-59) hoursWorked
  | ContractualEmployee _ _ paymentPerProject projectsCompleted =>
      sizeable (-59) paymentPerProject /\ 0 <= projectsCompleted
  end.

(** The block of one record in the report, with the [endl] after it. *)
Definition report_block (emp : Employee) : list item :=
  Emp.displayPayrollReport emp ++ [Endl].

(** A one followed by 309 zeros: it matches the decimal pattern and is
    larger than every finite double. *)
Definition huge_decimal : string :=
  String "1" (string_of_list_ascii (repeat "0"%char 309)).

(** ** A sample session

    The end-to-end examples of the specification, and a contractor with no
    project completed. *)

Definition ann : Employee := FullTimeEmployee "E1" "Ann" (decimal_value "1000" "00").
Definition bo : Employee :=
  PartTimeEmployee "E2" "Bo" (decimal_value "10" "5") (decimal_value "8" "").
Definition cy : Employee := ContractualEmployee "E3" "Cy" (decimal_value "200" "") 3.
Definition di : Employee := ContractualEmployee "E4" "Di" (decimal_value "150" "") 0.

Definition sample_registry : list Employee := [ann; bo; cy; di].

Definition typed (lines : list string) : console := {| cin := lines; cout := [] |}.

(** ** How the operations use the console *)

(** Every line still to be read has at most 308 characters. *)
Definition short_lines (w : console) : Prop :=
  Forall (fun line => (length line <= 308)%nat) (cin w).

(** An operation reads its lines in order from the front of [cin]: what it
    leaves is a suffix of what it found. *)
Definition reads_forward {A} (m : M A) : Prop :=
  forall w a w', m w = Done a w' -> exists consumed, cin w = consumed ++ cin w'.

(** On short lines the operation does not end the program. *)
Definition never_terminated {A} (m : M A) : Prop :=
  forall w w', short_lines w -> m w <> Terminated w'.

(** One rejected line at a prompt: the prompt, then the diagnostic. *)
Definition retry_output {A} (prompt : string) (body : string -> verdict A)
    (input : string) : list item :=
  Text prompt :: match body input with
                 | Retry diagnostic => diagnostic
                 | _ => []
                 end.

(** * Proofs *)

(** ** Integer literals and [stoi] *)

Lemma length_skip_space s : (length (skip_space s) <= length s)%nat.
Proof.
  induction s as [|c s IH]; simpl; [lia|].
  destruct (isspace c); simpl; lia.
Qed.

Lemma scan_digits_all s : forall acc,
  all_digits s = true ->
  scan_digits acc s = (acc * 10 ^ Z.of_nat (length s) + digits_value s, EmptyString).
Proof.
  induction s as [|c s IH]; intros acc H;
    cbn [scan_digits all_digits digits_value length] in *.
  - f_equal. change (10 ^ Z.of_nat 0) with 1. lia.
  - apply andb_true_iff in H as [Hc Hs]. rewrite Hc, (IH _ Hs). f_equal.
    rewrite Nat2Z.inj_succ, Z.pow_succ_r by lia. ring.
Qed.

Lemma scan_digits_rest s : forall acc v rest,
  scan_digits acc s = (v, rest) -> (rest = EmptyString <-> all_digits s = true).
Proof.
  induction s as [|c s IH]; intros acc v rest H; simpl in *.
  - inversion H; subst. tauto.
  - destruct (isdigit c); simpl.
    + eapply IH; eauto.
    + inversion H; subst. split; discriminate.
Qed.

Lemma length_zero_empty (s : string) : length s = 0%nat -> s = EmptyString.
Proof. destruct s; simpl; [reflexivity | discriminate]. Qed.

Lemma starts_with_digit_digits1 s :
  all_digits s = true -> starts_with_digit s = negb (empty s).
Proof. destruct s as [|c s]; simpl; [reflexivity|]. intros H; apply andb_true_iff in H as [-> _]; reflexivity. Qed.


Lemma stoi_literal T :
  integer_literal (skip_space T) = true ->
  stoi T = if in_int_range (literal_value (skip_space T))
           then Normal (literal_value (skip_space T), length T)
           else Raise out_of_range.
Proof.
  unfold stoi, integer_literal, literal_value.
  destruct (skip_space T) as [|c t] eqn:Es; [discriminate|].
  destruct (Ascii.eqb c "-") eqn:Em; [|destruct (Ascii.eqb c "+") eqn:Ep];
    cbn [orb]; unfold digits1; intros H; apply andb_true_iff in H as [Hne Hd];
    rewrite (starts_with_digit_digits1 _ Hd), Hne, (scan_digits_all _ 0 Hd);
    cbn [negb]; rewrite Z.mul_0_l, Z.add_0_l, Nat.sub_0_r; reflexivity.
Qed.

Lemma stoi_normal T v pos :
  stoi T = Normal (v, pos) -> pos = length T ->
  integer_literal (skip_space T) = true /\ v = literal_value (skip_space T).
Proof.
  unfold stoi, integer_literal, literal_value.
  pose proof (length_skip_space T) as Hlen.
  destruct (skip_space T) as [|c t] eqn:Es; [discriminate|].
  cbn [length] in Hlen.
  assert (Hgen : forall (neg : bool) s2,
    (length s2 <= length T)%nat ->
    (if starts_with_digit s2
     then let '(v0, rest) := scan_digits 0 s2 in
          let v1 := if neg then - v0 else v0 in
          if in_int_range v1
          then Normal (v1, (length T - length rest)%nat)
          else Raise out_of_range
     else Raise invalid_argument) = Normal (v, pos) ->
    pos = length T ->
    digits1 s2 = true /\ v = if neg then - digits_value s2 else digits_value s2).
  { intros neg s2 Hl H Hp.
    destruct (starts_with_digit s2) eqn:Hs; [|discriminate].
    destruct (scan_digits 0 s2) as [v0 rest] eqn:Hsc. cbv beta iota zeta in H.
    destruct (in_int_range (if neg then - v0 else v0)); [|discriminate].
    inversion H; subst v pos; clear H.
    assert (Hne : s2 <> EmptyString) by (intros ->; discriminate Hs).
    assert (Hr : rest = EmptyString).
    { apply length_zero_empty. destruct s2; [congruence|]. cbn [length] in *. lia. }
    subst rest. pose proof (proj1 (scan_digits_rest _ _ _ _ Hsc) eq_refl) as Hd.
    rewrite (scan_digits_all _ 0 Hd) in Hsc. inversion Hsc; subst v0.
    unfold digits1. rewrite Hd. destruct s2; [congruence|]. split; [reflexivity|].
    destruct neg; ring. }
  destruct (Ascii.eqb c "-") eqn:Em; [|destruct (Ascii.eqb c "+") eqn:Ep]; cbn [orb];
    intros H Hp.
  - apply (Hgen true t); [lia | exact H | exact Hp].
  - apply (Hgen false t); [lia | exact H | exact Hp].
  - apply (Hgen false (String c t)); [cbn [length]; lia | exact H | exact Hp].
Qed.

Lemma isValidInteger_spec T v :
  isValidInteger T = Some v <->
  integer_literal (skip_space T) = true /\
  v = literal_value (skip_space T) /\
  in_int_range v = true.
Proof.
  unfold isValidInteger. split.
  - destruct (stoi T) as [[v0 pos]|e] eqn:Hs; [|discriminate].
    destruct (Nat.eqb pos (length T)) eqn:Hp; [|discriminate].
    intros H; inversion H; subst v0. apply Nat.eqb_eq in Hp.
    destruct (stoi_normal _ _ _ Hs Hp) as [Hl Hv]. repeat split; trivial.
    rewrite (stoi_literal _ Hl) in Hs. subst v.
    destruct (in_int_range _); [reflexivity | discriminate].
  - intros (Hl & Hv & Hr). rewrite (stoi_literal _ Hl), <- Hv, Hr, Nat.eqb_refl.
    reflexivity.
Qed.

(** ** Binary64 rounding

    Bounds on what [binary_round_aux] returns for a mantissa of at least 53
    bits: the result is positive and normal, or it overflows. *)

Lemma digits2_pos_size p : digits2_pos p = Pos.size p.
Proof. induction p; simpl; congruence. Qed.

Lemma Zdigits2_bounds (m : Z) :
  0 < m -> 0 < Zdigits2 m /\ 2 ^ (Zdigits2 m - 1) <= m < 2 ^ Zdigits2 m.
Proof.
  destruct m as [|p|p]; try lia. intros _. cbn [Zdigits2].
  rewrite digits2_pos_size.
  pose proof (Pos.size_gt p) as Hgt. pose proof (Pos.size_le p) as Hle.
  apply Pos2Z.pos_lt_pos in Hgt. apply Pos2Z.pos_le_pos in Hle.
  rewrite Pos2Z.inj_pow in Hgt, Hle. change (Z.pos p~0) with (2 * Z.pos p) in Hle.
  split; [lia|]. split; [|exact Hgt].
  replace (Z.pos (Pos.size p)) with (Z.succ (Z.pos (Pos.size p) - 1)) in Hle by lia.
  rewrite Z.pow_succ_r in Hle by lia. lia.
Qed.

Lemma shr_1_m mrs : 0 <= shr_m mrs -> shr_m (shr_1 mrs) = shr_m mrs / 2.
Proof.
  destruct mrs as [m r s]; cbn [shr_m]. intros Hm.
  destruct m as [|[p|p|]|p]; cbn [shr_1 shr_m]; try reflexivity; try lia.
  - change (Z.pos p~1) with (2 * Z.pos p + 1).
    apply Z.div_unique with (r := 1); lia.
  - change (Z.pos p~0) with (2 * Z.pos p).
    apply Z.div_unique with (r := 0); lia.
Qed.

Lemma iter_shr_1_m p : forall mrs,
  0 <= shr_m mrs ->
  shr_m (iter_pos shr_1 p mrs) = shr_m mrs / 2 ^ Z.pos p.
Proof.
  assert (Hnn : forall mrs, 0 <= shr_m mrs -> 0 <= shr_m (shr_1 mrs)).
  { intros mrs H. rewrite shr_1_m by exact H. apply Z.div_pos; lia. }
  induction p as [p IH|p IH|]; intros mrs Hm; cbn [iter_pos].
  - rewrite IH, IH, shr_1_m; trivial.
    + rewrite !Z.div_div by (try apply Z.pow_pos_nonneg; lia). f_equal.
      change (Z.pos p~1) with (2 * Z.pos p + 1).
      rewrite Z.pow_add_r, Z.pow_mul_r by lia.
      change (2 ^ 2) with 4. rewrite Z.pow_1_r.
      replace (4 ^ Z.pos p) with (2 ^ Z.pos p * 2 ^ Z.pos p).
      * ring.
      * rewrite <- Z.pow_mul_l. reflexivity.
    + auto.
    + rewrite IH by auto. apply Z.div_pos; [auto | apply Z.pow_pos_nonneg; lia].
  - rewrite IH, IH; trivial.
    + rewrite !Z.div_div by (try apply Z.pow_pos_nonneg; lia). f_equal.
      change (Z.pos p~0) with (2 * Z.pos p).
      rewrite Z.pow_mul_r by lia. change (2 ^ 2) with 4.
      rewrite <- Z.pow_mul_l. reflexivity.
    + rewrite IH by auto. apply Z.div_pos; [auto | apply Z.pow_pos_nonneg; lia].
  - rewrite shr_1_m by exact Hm. reflexivity.
Qed.

Lemma shr_spec mrs e n :
  0 <= shr_m mrs -> 0 <= n ->
  shr_m (fst (shr mrs e n)) = shr_m mrs / 2 ^ n /\ snd (shr mrs e n) = e + n.
Proof.
  intros Hm Hn. destruct n as [|p|p]; try lia; cbn [shr fst snd].
  - rewrite Z.div_1_r. lia.
  - rewrite iter_shr_1_m by exact Hm. lia.
Qed.

Lemma shr_m_of_loc m l : shr_m (shr_record_of_loc m l) = m.
Proof. destruct l as [|[]]; reflexivity. Qed.

(** Shifting a mantissa of at least 53 bits down to the precision keeps 53 bits. *)
Lemma shr_fexp_big m e l :
  2 ^ 52 <= m -> -1021 <= e ->
  2 ^ 52 <= shr_m (fst (shr_fexp prec emax m e l)) < 2 ^ 53 /\
  e <= snd (shr_fexp prec emax m e l).
Proof.
  intros Hm He. unfold shr_fexp.
  assert (0 < m) as Hpos by (change (2 ^ 52) with 4503599627370496 in Hm; lia).
  destruct (Zdigits2_bounds m Hpos) as (Hd0 & Hlo & Hhi).
  set (d := Zdigits2 m) in *.
  assert (Hd : 53 <= d).
  { destruct (Z_lt_le_dec d 53) as [Hlt|]; [|assumption].
    assert (2 ^ d <= 2 ^ 52) by (apply Z.pow_le_mono_r; lia). lia. }
  assert (Hf : fexp prec emax (d + e) - e = d - 53).
  { unfold fexp, emin, prec, emax. lia. }
  rewrite Hf.
  destruct (shr_spec (shr_record_of_loc m l) e (d - 53)) as [H1 H2].
  { rewrite shr_m_of_loc. lia. }
  { lia. }
  rewrite H1, H2, shr_m_of_loc.
  assert (Hp : 2 ^ (d - 1) = 2 ^ (d - 53) * 2 ^ 52).
  { rewrite <- Z.pow_add_r by lia. f_equal. lia. }
  assert (Hq : 2 ^ d = 2 ^ (d - 53) * 2 ^ 53).
  { rewrite <- Z.pow_add_r by lia. f_equal. lia. }
  assert (0 < 2 ^ (d - 53)) by (apply Z.pow_pos_nonneg; lia).
  repeat split.
  - apply Z.div_le_lower_bound; lia.
  - apply Z.div_lt_upper_bound; lia.
  - lia.
Qed.

Lemma round_nearest_even_bounds m l :
  m <= round_nearest_even m l <= m + 1.
Proof.
  unfold round_nearest_even. destruct l as [|[]]; try lia.
  destruct (Z.even m); lia.
Qed.

Lemma binary_round_aux_big mx ex lx :
  2 ^ 52 <= mx -> -1021 <= ex ->
  binary_round_aux prec emax false mx ex lx = S754_infinity false \/
  sizeable ex (binary_round_aux prec emax false mx ex lx).
Proof.
  intros Hm He. unfold binary_round_aux.
  destruct (shr_fexp_big mx ex lx Hm He) as [[Hlo Hhi] He1].
  destruct (shr_fexp prec emax mx ex lx) as [mrs1 e1]. cbn [fst snd] in *.
  pose proof (round_nearest_even_bounds (shr_m mrs1) (loc_of_shr_record mrs1)) as Hr.
  set (m2 := round_nearest_even (shr_m mrs1) (loc_of_shr_record mrs1)) in *.
  destruct (shr_fexp_big m2 e1 loc_Exact) as [[Hlo2 Hhi2] He2]; [lia | lia |].
  destruct (shr_fexp prec emax m2 e1 loc_Exact) as [mrs2 e2]. cbn [fst snd] in *.
  destruct (shr_m mrs2) as [|m|m] eqn:Em.
  - change (2 ^ 52) with 4503599627370496 in Hlo2. lia.
  - destruct (e2 <=? emax - prec); [right | left; reflexivity].
    exists m, e2. repeat split; [exact Hlo2 | lia].
  - change (2 ^ 52) with 4503599627370496 in Hlo2. lia.
Qed.

Lemma sizeable_weaken lo lo' x : lo' <= lo -> sizeable lo x -> sizeable lo' x.
Proof. intros H (m & e & -> & Hm & He). exists m, e. repeat split; [exact Hm | lia]. Qed.

Lemma SFdiv_core_big p D :
  Zdigits2 (Z.pos D) <= 7 ->
  2 ^ 52 <= fst (fst (SFdiv_core_binary prec emax (Z.pos p) 0 (Z.pos D) 0)) /\
  -59 <= snd (fst (SFdiv_core_binary prec emax (Z.pos p) 0 (Z.pos D) 0)).
Proof.
  intros HD. unfold SFdiv_core_binary.
  destruct (Zdigits2_bounds (Z.pos p)) as (Hd1 & Hlo1 & Hhi1); [lia|].
  destruct (Zdigits2_bounds (Z.pos D)) as (Hd2 & Hlo2 & Hhi2); [lia|].
  set (d1 := Zdigits2 (Z.pos p)) in *. set (d2 := Zdigits2 (Z.pos D)) in *.
  assert (He : Z.min (fexp prec emax (d1 + 0 - (d2 + 0))) (0 - 0) = Z.min (d1 - d2 - 53) 0).
  { unfold fexp, emin, prec, emax. lia. }
  rewrite He. set (e' := Z.min (d1 - d2 - 53) 0).
  set (m' := match 0 - 0 - e' with
             | 0 => Z.pos p
             | Z.pos _ => Z.shiftl (Z.pos p) (0 - 0 - e')
             | Z.neg _ => 0
             end).
  assert (Hm' : 2 ^ d2 * 2 ^ 52 <= m').
  { rewrite <- Z.pow_add_r by lia. subst m'.
    destruct (0 - 0 - e') as [|s|s] eqn:Es.
    - apply Z.le_trans with (2 ^ (d1 - 1)); [apply Z.pow_le_mono_r; lia | exact Hlo1].
    - rewrite Z.shiftl_mul_pow2 by lia.
      apply Z.le_trans with (2 ^ (d1 - 1) * 2 ^ Z.pos s).
      + rewrite <- Z.pow_add_r by lia. apply Z.pow_le_mono_r; lia.
      + apply Z.mul_le_mono_nonneg_r; [apply Z.pow_nonneg; lia | exact Hlo1].
    - lia. }
  pose proof (Z.div_le_lower_bound m' (Z.pos D) (2 ^ 52)) as Hq.
  unfold Z.div in Hq. destruct (Z.div_eucl m' (Z.pos D)) as [q r]. cbn [fst snd].
  split; [|subst e'; lia].
  apply Hq; [lia|].
  apply Z.le_trans with (2 ^ d2 * 2 ^ 52); [|exact Hm'].
  apply Z.mul_le_mono_nonneg_r; [apply Z.pow_nonneg; lia | lia].
Qed.

Lemma nearest_decimal_big p k :
  (k <= 2)%nat ->
  nearest_decimal (Z.pos p) k = S754_infinity false \/
  sizeable (-59) (nearest_decimal (Z.pos p) k).
Proof.
  intros Hk. unfold nearest_decimal, SFdiv.
  set (D := Z.to_pos (10 ^ Z.of_nat k)).
  assert (HD : Zdigits2 (Z.pos D) <= 7).
  { subst D. destruct k as [|[|[|k]]]; [vm_compute; discriminate .. | lia]. }
  destruct (SFdiv_core_big p D HD) as [Hq He].
  destruct (SFdiv_core_binary prec emax (Z.pos p) 0 (Z.pos D) 0) as [[q e] l].
  cbn [fst snd xorb] in *.
  destruct (binary_round_aux_big q e l Hq) as [Hi|Hs]; [lia | left; exact Hi |].
  right. eapply sizeable_weaken; [|exact Hs]. exact He.
Qed.

Lemma pos_iter_xO p d : Z.pos (Pos.iter xO p d) = Z.pos p * 2 ^ Z.pos d.
Proof.
  induction d as [|d IH] using Pos.peano_ind.
  - cbn [Pos.iter]. change (Z.pos p~0) with (2 * Z.pos p). rewrite Z.pow_1_r. ring.
  - rewrite Pos.iter_succ, Pos2Z.inj_succ, Z.pow_succ_r by lia.
    change (Z.pos (Pos.iter xO p d)~0) with (2 * Z.pos (Pos.iter xO p d)).
    rewrite IH. ring.
Qed.

Lemma double_of_int_big n :
  0 < n ->
  double_of_int n = S754_infinity false \/ sizeable (-52) (double_of_int n).
Proof.
  destruct n as [|p|p]; try lia. intros _.
  unfold double_of_int, binary_normalize, binary_round, shl_align.
  destruct (Zdigits2_bounds (Z.pos p)) as (Hd & Hlo & Hhi); [lia|].
  cbn [Zdigits2] in *. set (d := Z.pos (digits2_pos p)) in *.
  assert (Hf : fexp prec emax (d + 0) - 0 = d - 53).
  { unfold fexp, emin, prec, emax. lia. }
  rewrite Hf.
  destruct (d - 53) as [|s|s] eqn:Es.
  - destruct (binary_round_aux_big (Z.pos p) 0 loc_Exact) as [Hi|Hs];
      [replace 52 with (d - 1) by lia; exact Hlo | lia | left; exact Hi |].
    right. eapply sizeable_weaken; [|exact Hs]. lia.
  - destruct (binary_round_aux_big (Z.pos p) 0 loc_Exact) as [Hi|Hs];
      [| lia | left; exact Hi |].
    + apply Z.le_trans with (2 ^ (d - 1)); [apply Z.pow_le_mono_r; lia | exact Hlo].
    + right. eapply sizeable_weaken; [|exact Hs]. lia.
  - assert (Hfe : fexp prec emax (d + 0) = d - 53).
    { unfold fexp, emin, prec, emax. lia. }
    rewrite Hfe.
    destruct (binary_round_aux_big (Z.pos (Pos.iter xO p s)) (d - 53) loc_Exact)
      as [Hi|Hs]; [| lia | left; exact Hi |].
    + rewrite pos_iter_xO.
      apply Z.le_trans with (2 ^ (d - 1) * 2 ^ Z.pos s).
      * rewrite <- Z.pow_add_r by lia. apply Z.pow_le_mono_r; lia.
      * apply Z.mul_le_mono_nonneg_r; [apply Z.pow_nonneg; lia | exact Hlo].
    + right. eapply sizeable_weaken; [|exact Hs]. lia.
Qed.

Lemma dmul_big a b x y :
  sizeable a x -> sizeable b y -> -1021 <= a + b ->
  dmul x y = S754_infinity false \/ sizeable (a + b) (dmul x y).
Proof.
  intros (mx & ex & -> & Hmx & Hex) (my & ey & -> & Hmy & Hey) Hab.
  unfold dmul, SFmul. cbn [xorb].
  destruct (binary_round_aux_big (Z.pos (mx * my)) (ex + ey) loc_Exact) as [Hi|Hs].
  - rewrite Pos2Z.inj_mul. change (2 ^ 52) with 4503599627370496 in *. nia.
  - lia.
  - left; exact Hi.
  - right. eapply sizeable_weaken; [|exact Hs]. lia.
Qed.

Lemma sizeable_positive lo x :
  sizeable lo x -> dlt dzero x = true /\ dle dzero x = true /\ deq x dzero = false.
Proof. intros (m & e & -> & _). repeat split. Qed.

Lemma infinity_positive :
  dlt dzero (S754_infinity false) = true /\
  dle dzero (S754_infinity false) = true /\
  deq (S754_infinity false) dzero = false.
Proof. repeat split. Qed.

(** ** The language of a regular expression *)

Lemma matches_Void s : matches Void s = false.
Proof. induction s; simpl; auto. Qed.

Lemma matches_Eps s : matches Eps s = true <-> s = [].
Proof.
  destruct s as [|c s]; simpl; [tauto|].
  rewrite matches_Void. split; discriminate.
Qed.

Lemma matches_Alt s : forall r1 r2,
  matches (Alt r1 r2) s = matches r1 s || matches r2 s.
Proof. induction s as [|c s IH]; intros; simpl; auto. Qed.

Lemma matches_Class p s :
  matches (Class p) s = true <-> exists c, s = [c] /\ p c = true.
Proof.
  destruct s as [|c s]; simpl.
  - split; [discriminate | intros (c & H & _); discriminate].
  - destruct (p c) eqn:Hp.
    + rewrite matches_Eps. split.
      * intros ->. eauto.
      * intros (c' & H & _). inversion H; reflexivity.
    + rewrite matches_Void. split; [discriminate|].
      intros (c' & H & Hc). inversion H; subst. congruence.
Qed.

Lemma matches_Cat s : forall r1 r2,
  matches (Cat r1 r2) s = true <->
  exists s1 s2, s = s1 ++ s2 /\ matches r1 s1 = true /\ matches r2 s2 = true.
Proof.
  induction s as [|c s IH]; intros r1 r2.
  - simpl. rewrite andb_true_iff. split.
    + intros [H1 H2]. exists [], []. auto.
    + intros (s1 & s2 & H & H1 & H2). symmetry in H.
      apply app_eq_nil in H as [-> ->]. auto.
  - cbn [matches deriv]. split.
    + intros H.
      assert (Hcase : matches (Cat (deriv c r1) r2) s = true \/
                      (nullable r1 = true /\ matches (deriv c r2) s = true)).
      { destruct (nullable r1); [|auto].
        rewrite matches_Alt in H. apply orb_true_iff in H as [H|H]; auto. }
      destruct Hcase as [H'|[Hn H']].
      * apply IH in H' as (s1 & s2 & -> & H1 & H2).
        exists (c :: s1), s2. auto.
      * exists [], (c :: s). auto.
    + intros (s1 & s2 & Heq & H1 & H2).
      destruct s1 as [|c1 s1].
      * simpl in Heq, H1. subst s2. rewrite H1, matches_Alt.
        cbn [matches] in H2. rewrite H2. apply orb_true_r.
      * inversion Heq; subst c1 s.
        assert (H' : matches (Cat (deriv c r1) r2) (s1 ++ s2) = true).
        { apply IH. exists s1, s2. auto. }
        destruct (nullable r1); [|exact H'].
        rewrite matches_Alt, H'. reflexivity.
Qed.

Lemma matches_Star_Class p s :
  matches (Star (Class p)) s = forallb p s.
Proof.
  induction s as [|c s IH]; [reflexivity|].
  cbn [matches deriv forallb nullable]. destruct (p c) eqn:Hp; cbn [andb].
  - rewrite <- IH. apply eq_true_iff_eq. rewrite matches_Cat. split.
    + intros (s1 & s2 & -> & H1 & H2). apply matches_Eps in H1. subst. exact H2.
    + intros H. exists [], s. auto.
  - destruct (matches (Cat Void (Star (Class p))) s) eqn:H; [|reflexivity].
    apply matches_Cat in H as (s1 & s2 & _ & H1 & _).
    rewrite matches_Void in H1. discriminate.
Qed.

Lemma matches_Plus_Class p s :
  matches (Plus (Class p)) s = true <-> s <> [] /\ forallb p s = true.
Proof.
  unfold Plus. rewrite matches_Cat. split.
  - intros (s1 & s2 & -> & H1 & H2). apply matches_Class in H1 as (c & -> & Hc).
    rewrite matches_Star_Class in H2. simpl. rewrite Hc, H2. split; [discriminate|reflexivity].
  - intros [Hne H]. destruct s as [|c s]; [congruence|].
    simpl in H. apply andb_true_iff in H as [Hc Hs].
    exists [c], s. repeat split.
    + apply matches_Class. eauto.
    + rewrite matches_Star_Class. exact Hs.
Qed.

Lemma matches_Opt r s :
  matches (Opt r) s = true <-> matches r s = true \/ s = [].
Proof.
  unfold Opt. rewrite matches_Alt, orb_true_iff, matches_Eps. tauto.
Qed.

Lemma matches_Rep12_Class p s :
  matches (Rep12 (Class p)) s = true <->
  s <> [] /\ (List.length s <= 2)%nat /\ forallb p s = true.
Proof.
  unfold Rep12. rewrite matches_Cat. split.
  - intros (s1 & s2 & -> & H1 & H2). apply matches_Class in H1 as (c & -> & Hc).
    apply matches_Opt in H2 as [H2 | ->].
    + apply matches_Class in H2 as (c2 & -> & Hc2). simpl. rewrite Hc, Hc2.
      repeat split; [discriminate | lia].
    + simpl. rewrite Hc. repeat split; [discriminate | lia].
  - intros (Hne & Hlen & H). destruct s as [|c s]; [congruence|].
    simpl in H. apply andb_true_iff in H as [Hc Hs].
    exists [c], s. repeat split.
    + apply matches_Class. eauto.
    + apply matches_Opt. destruct s as [|c2 [|c3 s]]; [auto | | simpl in Hlen; lia].
      left. apply matches_Class. exists c2. split; [reflexivity|].
      simpl in Hs. apply andb_true_iff in Hs as [Hs _]. exact Hs.
Qed.

(** ** Strings as lists of characters *)
Lemma list_of_append (a b : string) :
  list_ascii_of_string (a ++ b) = list_ascii_of_string a ++ list_ascii_of_string b.
Proof. induction a as [|c a IH]; simpl; [reflexivity | rewrite IH; reflexivity]. Qed.

Lemma list_of_length (s : string) : List.length (list_ascii_of_string s) = length s.
Proof. induction s; simpl; auto. Qed.

Lemma all_digits_forallb s : all_digits s = forallb isdigit (list_ascii_of_string s).
Proof. induction s as [|c s IH]; simpl; [reflexivity | rewrite IH; reflexivity]. Qed.

Lemma all_alnum_forallb s : all_alnum s = forallb isalnum (list_ascii_of_string s).
Proof. induction s as [|c s IH]; simpl; [reflexivity | rewrite IH; reflexivity]. Qed.

Lemma list_of_nil s : list_ascii_of_string s = [] <-> s = EmptyString.
Proof. destruct s; simpl; split; intros; congruence. Qed.

Lemma digits1_list s :
  digits1 s = true <->
  list_ascii_of_string s <> [] /\ forallb isdigit (list_ascii_of_string s) = true.
Proof.
  unfold digits1. rewrite andb_true_iff, all_digits_forallb, negb_true_iff.
  destruct s; simpl; split; intros [H1 H2]; split; congruence.
Qed.

Lemma of_list_inj_app l1 l2 :
  string_of_list_ascii (l1 ++ l2) = (string_of_list_ascii l1 ++ string_of_list_ascii l2)%string.
Proof. induction l1 as [|c l1 IH]; simpl; [reflexivity | rewrite IH; reflexivity]. Qed.

(** The pattern of [isValidDecimal] says what the specification says. *)
Lemma decimalRegex_shape T :
  regex_match T decimalRegex = true <-> decimal_shape T.
Proof.
  unfold regex_match, decimalRegex, decimal_shape. rewrite matches_Cat. split.
  - intros (s1 & s2 & Heq & H1 & H2).
    apply matches_Plus_Class in H1 as [Hne Hd].
    exists (string_of_list_ascii s1). split.
    { apply digits1_list. rewrite list_ascii_of_string_of_list_ascii. auto. }
    apply matches_Opt in H2 as [H2 | ->].
    + right. apply matches_Cat in H2 as (dot & fp & -> & Hdot & Hfp).
      apply matches_Class in Hdot as (c & -> & Hc). apply Ascii.eqb_eq in Hc. subst c.
      apply matches_Rep12_Class in Hfp as (Hfne & Hlen & Hfd).
      exists (string_of_list_ascii fp). repeat split.
      * apply digits1_list. rewrite list_ascii_of_string_of_list_ascii. auto.
      * rewrite <- list_of_length, list_ascii_of_string_of_list_ascii. exact Hlen.
      * rewrite <- (string_of_list_ascii_of_string T), Heq.
        rewrite of_list_inj_app. reflexivity.
    + left. rewrite app_nil_r in Heq.
      rewrite <- (string_of_list_ascii_of_string T), Heq. reflexivity.
  - intros (ip & Hip & [-> | (fp & Hfp & Hlen & ->)]); apply digits1_list in Hip.
    + exists (list_ascii_of_string ip), []. rewrite app_nil_r.
      split; [reflexivity | split].
      * apply matches_Plus_Class. exact Hip.
      * apply matches_Opt. auto.
    + apply digits1_list in Hfp.
      exists (list_ascii_of_string ip), ("."%char :: list_ascii_of_string fp).
      split; [|split].
      * rewrite list_of_append. reflexivity.
      * apply matches_Plus_Class. exact Hip.
      * apply matches_Opt. left. apply matches_Cat.
        exists ["."%char], (list_ascii_of_string fp). split; [reflexivity | split].
        -- apply matches_Class. exists "."%char. split; [reflexivity | apply Ascii.eqb_refl].
        -- apply matches_Rep12_Class. rewrite list_of_length. tauto.
Qed.

(** ** Decimal texts and [stod] *)

Lemma digit_value_range c : isdigit c = true -> 0 <= digit_value c <= 9.
Proof.
  unfold isdigit, digit_value. rewrite andb_true_iff, !N.leb_le. lia.
Qed.

Lemma digits_value_nonneg s : all_digits s = true -> 0 <= digits_value s.
Proof.
  induction s as [|c s IH]; cbn [all_digits digits_value]; [lia|].
  rewrite andb_true_iff. intros [Hc Hs]. apply digit_value_range in Hc.
  specialize (IH Hs). assert (0 <= 10 ^ Z.of_nat (length s)) by (apply Z.pow_nonneg; lia).
  nia.
Qed.

Lemma all_digits_app a b : all_digits (a ++ b) = all_digits a && all_digits b.
Proof.
  induction a as [|c a IH]; cbn [append all_digits]; [reflexivity|].
  rewrite IH, andb_assoc. reflexivity.
Qed.

Lemma length_append (a b : string) : length (a ++ b) = (length a + length b)%nat.
Proof. induction a as [|c a IH]; cbn [append length]; [reflexivity | rewrite IH; reflexivity]. Qed.

Lemma digits_value_app a b :
  digits_value (a ++ b) = digits_value a * 10 ^ Z.of_nat (length b) + digits_value b.
Proof.
  induction a as [|c a IH]; cbn [append digits_value]; [lia|].
  rewrite IH, length_append, Nat2Z.inj_add, Z.pow_add_r by lia. ring.
Qed.

Lemma scan_digits_app a b : forall acc,
  all_digits a = true -> starts_with_digit b = false ->
  scan_digits acc (a ++ b) = (acc * 10 ^ Z.of_nat (length a) + digits_value a, b).
Proof.
  induction a as [|c a IH]; intros acc Ha Hb;
    cbn [append scan_digits all_digits digits_value length] in *.
  - change (10 ^ Z.of_nat 0) with 1. rewrite Z.mul_1_r, Z.add_0_r.
    destruct b as [|c b]; [reflexivity|]. cbn [starts_with_digit scan_digits] in *.
    rewrite Hb. reflexivity.
  - apply andb_true_iff in Ha as [Hc Ha]. rewrite Hc, (IH _ Ha Hb). f_equal.
    rewrite Nat2Z.inj_succ, Z.pow_succ_r by lia. ring.
Qed.

Lemma stod_integer ip :
  digits1 ip = true -> stod ip = stod_result (decimal_value ip "").
Proof.
  unfold digits1, stod, decimal_value, stod_result. rewrite andb_true_iff.
  intros [Hne Hd]. rewrite (starts_with_digit_digits1 _ Hd), Hne.
  rewrite (scan_digits_all _ 0 Hd). cbv beta iota.
  rewrite digits_value_app. cbn [digits_value length].
  change (Z.of_nat 0) with 0. rewrite Z.pow_0_r, Z.mul_1_r, Z.add_0_r.
  rewrite Z.mul_0_l, Z.add_0_l. reflexivity.
Qed.

Lemma stod_fraction ip fp :
  digits1 ip = true -> digits1 fp = true ->
  stod (ip ++ "." ++ fp) = stod_result (decimal_value ip fp).
Proof.
  unfold digits1, stod, decimal_value, stod_result. rewrite !andb_true_iff.
  intros [Hne Hd] [Hfne Hfd].
  assert (Hs : starts_with_digit (ip ++ "." ++ fp) = true).
  { destruct ip as [|c ip]; [discriminate|]. cbn. cbn in Hd.
    apply andb_true_iff in Hd as [-> _]. reflexivity. }
  rewrite Hs, (scan_digits_app ip ("." ++ fp) 0 Hd eq_refl).
  cbn [append]. rewrite Ascii.eqb_refl.
  rewrite (scan_digits_all _ _ Hfd). cbn [length]. rewrite Nat.sub_0_r.
  rewrite digits_value_app. rewrite Z.mul_0_l, Z.add_0_l. reflexivity.
Qed.

(** What [isValidDecimal] does on every text. *)
Lemma isValidDecimal_no_match T :
  isValidDecimal T = Normal None <-> ~ decimal_shape T.
Proof.
  rewrite <- decimalRegex_shape. unfold isValidDecimal.
  destruct (regex_match T decimalRegex).
  - split; [|congruence]. destruct (stod T); discriminate.
  - split; [discriminate | reflexivity].
Qed.

Lemma isValidDecimal_integer ip :
  digits1 ip = true ->
  isValidDecimal ip =
    if is_infinite (decimal_value ip "") then Raise out_of_range
    else Normal (Some (decimal_value ip "")).
Proof.
  intros H. unfold isValidDecimal.
  assert (Hm : regex_match ip decimalRegex = true).
  { apply decimalRegex_shape. exists ip. auto. }
  rewrite Hm, (stod_integer _ H). unfold stod_result.
  destruct (is_infinite _); reflexivity.
Qed.

Lemma isValidDecimal_fraction ip fp :
  digits1 ip = true -> digits1 fp = true -> (length fp <= 2)%nat ->
  isValidDecimal (ip ++ "." ++ fp) =
    if is_infinite (decimal_value ip fp) then Raise out_of_range
    else Normal (Some (decimal_value ip fp)).
Proof.
  intros Hi Hf Hl. unfold isValidDecimal.
  assert (Hm : regex_match (ip ++ "." ++ fp) decimalRegex = true).
  { apply decimalRegex_shape. exists ip. split; [exact Hi|]. right. exists fp. auto. }
  rewrite Hm, (stod_fraction _ _ Hi Hf). unfold stod_result.
  destruct (is_infinite _); reflexivity.
Qed.

Lemma isValidDecimal_some T v :
  isValidDecimal T = Normal (Some v) ->
  exists ip fp,
    digits1 ip = true /\ all_digits fp = true /\ (length fp <= 2)%nat /\
    v = decimal_value ip fp /\ is_infinite v = false.
Proof.
  intros H.
  assert (Hs : decimal_shape T).
  { apply decimalRegex_shape. unfold isValidDecimal in H.
    destruct (regex_match T decimalRegex); [reflexivity | discriminate]. }
  destruct Hs as (ip & Hip & [-> | (fp & Hfp & Hlen & ->)]).
  - rewrite (isValidDecimal_integer _ Hip) in H.
    destruct (is_infinite (decimal_value ip "")) eqn:Hi; [discriminate|].
    inversion H; subst v. exists ip, EmptyString. cbn [length]. repeat split; auto; lia.
  - rewrite (isValidDecimal_fraction _ _ Hip Hfp Hlen) in H.
    destruct (is_infinite (decimal_value ip fp)) eqn:Hi; [discriminate|].
    inversion H; subst v. exists ip, fp.
    unfold digits1 in Hfp. apply andb_true_iff in Hfp as [_ Hfp]. auto.
Qed.

(** An accepted decimal that is greater than zero is at least [0.01]. *)
Lemma accepted_decimal_sizeable T v :
  isValidDecimal T = Normal (Some v) -> dlt dzero v = true -> sizeable (-59) v.
Proof.
  intros H Hpos.
  destruct (isValidDecimal_some _ _ H) as (ip & fp & Hip & Hfp & Hlen & -> & Hfin).
  unfold decimal_value in *.
  assert (Hnn : 0 <= digits_value (ip ++ fp)).
  { apply digits_value_nonneg. rewrite all_digits_app, Hfp.
    unfold digits1 in Hip. apply andb_true_iff in Hip as [_ ->]. reflexivity. }
  destruct (digits_value (ip ++ fp)) as [|p|p]; [discriminate Hpos | | lia].
  destruct (nearest_decimal_big p (length fp) Hlen) as [Hi|Hs]; [|exact Hs].
  rewrite Hi in Hfin. discriminate.
Qed.

(** ** Identifiers *)

Lemma has_space_not_alnum s : has_space s = true -> all_alnum s = false.
Proof.
  induction s as [|c s IH]; cbn [has_space all_alnum]; [discriminate|].
  destruct (Ascii.eqb c " ") eqn:Ec.
  - apply Ascii.eqb_eq in Ec. subst c. reflexivity.
  - cbn [orb]. intros H. rewrite (IH H). apply andb_false_r.
Qed.

(** [isValidID] is the [validateId] of the specification. *)
Lemma isValidID_spec id : isValidID id = validateId_spec id.
Proof.
  unfold isValidID, validateId_spec.
  destruct (has_space id) eqn:Hs.
  - rewrite (has_space_not_alnum _ Hs). symmetry. apply andb_false_r.
  - apply eq_true_iff_eq. unfold regex_match, idRegex.
    rewrite matches_Plus_Class, andb_true_iff, negb_true_iff, all_alnum_forallb.
    destruct id; cbn; split; intros [H1 H2]; split; congruence.
Qed.

Lemma isValidID_examples :
  isValidID "" = false /\ isValidID "ab 12" = false /\
  isValidID "ab12" = true /\ isValidID "ab-12" = false.
Proof. repeat split. Qed.

(** ** Running the prompts *)

Lemma bind_done {A B} (m : M A) (k : A -> M B) w b w2 :
  bind m k w = Done b w2 ->
  exists a w1, m w = Done a w1 /\ k a w1 = Done b w2.
Proof. unfold bind. destruct (m w) as [a w1| |]; [eauto | discriminate ..]. Qed.

Lemma prompt_loop_done {A} prompt (body : string -> verdict A) lines :
  forall out a w,
    prompt_loop prompt body lines out = Done a w ->
    exists input,
      In input lines /\ body input = Accept a /\
      (List.length (cin w) < List.length lines)%nat.
Proof.
  induction lines as [|input lines IH]; intros out a w H; cbn [prompt_loop] in H.
  - discriminate.
  - destruct (body input) as [a'|diag|] eqn:Hb.
    + inversion H; subst. exists input. cbn. auto with arith.
    + apply IH in H as (i & Hin & Hi & Hlen). exists i. cbn. auto with arith.
    + discriminate.
Qed.

Lemma prompting_done {A} prompt (body : string -> verdict A) w a w' :
  prompting prompt body w = Done a w' ->
  exists input,
    In input (cin w) /\ body input = Accept a /\
    (List.length (cin w') < List.length (cin w))%nat.
Proof. apply prompt_loop_done. Qed.

Lemma getEmployeeId_done employees w id w' :
  getEmployeeId employees w = Done id w' ->
  empty id = false /\ isValidID id = true /\ isIdUnique employees id = true /\
  (List.length (cin w') < List.length (cin w))%nat.
Proof.
  intros H. apply prompting_done in H as (input & _ & Hb & Hlen).
  destruct (empty input) eqn:He; [discriminate|].
  destruct (isValidID input) eqn:Hv; [|discriminate].
  destruct (isIdUnique employees input) eqn:Hu; [|discriminate].
  cbn in Hb. inversion Hb; subst. auto.
Qed.

Lemma getEmployeeName_done w name w' :
  getEmployeeName w = Done name w' ->
  empty name = false /\ (List.length (cin w') < List.length (cin w))%nat.
Proof.
  intros H. apply prompting_done in H as (input & _ & Hb & Hlen).
  destruct (empty input) eqn:He; [discriminate|].
  cbn in Hb. inversion Hb; subst. auto.
Qed.

Lemma getValidDecimalInput_done prompt w value w' :
  getValidDecimalInput prompt w = Done value w' ->
  (exists input,
     In input (cin w) /\ isValidDecimal input = Normal (Some value)) /\
  dlt dzero value = true /\
  (List.length (cin w') < List.length (cin w))%nat.
Proof.
  intros H. apply prompting_done in H as (input & Hin & Hb & Hlen).
  destruct (isValidDecimal input) as [[v|]|e] eqn:Hd; try discriminate.
  destruct (dlt dzero v) eqn:Hp; [|discriminate].
  inversion Hb; subst. eauto.
Qed.

Lemma getValidNumericInput_done prompt w value w' :
  getValidNumericInput prompt w = Done value w' ->
  (exists input,
     In input (cin w) /\ isValidInteger input = Some value) /\
  0 <= value /\
  (List.length (cin w') < List.length (cin w))%nat.
Proof.
  intros H. apply prompting_done in H as (input & Hin & Hb & Hlen).
  destruct (isValidInteger input) as [v|] eqn:Hd; try discriminate.
  destruct (0 <=? v) eqn:Hp; [|discriminate].
  inversion Hb; subst. apply Z.leb_le in Hp. eauto.
Qed.

Lemma print_done items w u w' :
  print items w = Done u w' -> cin w' = cin w /\ cout w' = cout w ++ items.
Proof. unfold print. intros H; inversion H; subst. auto. Qed.

(** What a completed [add] has done. *)
Lemma addFullTimeEmployee_done employees w employees' w' :
  addFullTimeEmployee employees w = Done employees' w' ->
  exists id name salary,
    employees' = employees ++ [FullTimeEmployee id name salary] /\
    isIdUnique employees id = true /\
    dlt dzero salary = true /\ sizeable (-59) salary /\
    (List.length (cin w') < List.length (cin w))%nat.
Proof.
  unfold addFullTimeEmployee. intros H.
  apply bind_done in H as (id & w1 & Hid & H).
  apply bind_done in H as (name & w2 & Hname & H).
  apply bind_done in H as (salary & w3 & Hsal & H).
  apply bind_done in H as (u & w4 & Hpr & H).
  inversion H; subst; clear H.
  apply getEmployeeId_done in Hid as (_ & _ & Hu & L1).
  apply getEmployeeName_done in Hname as (_ & L2).
  apply getValidDecimalInput_done in Hsal as ((i & _ & Hi) & Hp & L3).
  apply print_done in Hpr as [L4 _].
  exists id, name, salary. repeat split; auto.
  - eapply accepted_decimal_sizeable; eauto.
  - rewrite L4. lia.
Qed.

Lemma addPartTimeEmployee_done employees w employees' w' :
  addPartTimeEmployee employees w = Done employees' w' ->
  exists id name hourlyWage hoursWorked,
    employees' = employees ++ [PartTimeEmployee id name hourlyWage hoursWorked] /\
    isIdUnique employees id = true /\
    dlt dzero hourlyWage = true /\ sizeable (-59) hourlyWage /\
    dlt dzero hoursWorked = true /\ sizeable (-59) hoursWorked /\
    (List.length (cin w') < List.length (cin w))%nat.
Proof.
  unfold addPartTimeEmployee. intros H.
  apply bind_done in H as (id & w1 & Hid & H).
  apply bind_done in H as (name & w2 & Hname & H).
  apply bind_done in H as (wage & w3 & Hwage & H).
  apply bind_done in H as (hours & w4 & Hhours & H).
  apply bind_done in H as (u & w5 & Hpr & H).
  inversion H; subst; clear H.
  apply getEmployeeId_done in Hid as (_ & _ & Hu & L1).
  apply getEmployeeName_done in Hname as (_ & L2).
  apply getValidDecimalInput_done in Hwage as ((i & _ & Hi) & Hp & L3).
  apply getValidDecimalInput_done in Hhours as ((j & _ & Hj) & Hq & L4).
  apply print_done in Hpr as [L5 _].
  exists id, name, wage, hours. repeat split; auto.
  - eapply accepted_decimal_sizeable; eauto.
  - eapply accepted_decimal_sizeable; eauto.
  - rewrite L5. lia.
Qed.

Lemma addContractualEmployee_done employees w employees' w' :
  addContractualEmployee employees w = Done employees' w' ->
  exists id name paymentPerProject projectsCompleted,
    employees' =
      employees ++ [ContractualEmployee id name paymentPerProject projectsCompleted] /\
    isIdUnique employees id = true /\
    dlt dzero paymentPerProject = true /\ sizeable (-59) paymentPerProject /\
    0 <= projectsCompleted /\
    (List.length (cin w') < List.length (cin w))%nat.
Proof.
  unfold addContractualEmployee. intros H.
  apply bind_done in H as (id & w1 & Hid & H).
  apply bind_done in H as (name & w2 & Hname & H).
  apply bind_done in H as (pay & w3 & Hpay & H).
  apply bind_done in H as (n & w4 & Hn & H).
  apply bind_done in H as (u & w5 & Hpr & H).
  inversion H; subst; clear H.
  apply getEmployeeId_done in Hid as (_ & _ & Hu & L1).
  apply getEmployeeName_done in Hname as (_ & L2).
  apply getValidDecimalInput_done in Hpay as ((i & _ & Hi) & Hp & L3).
  apply getValidNumericInput_done in Hn as (_ & Hn & L4).
  apply print_done in Hpr as [L5 _].
  exists id, name, pay, n. repeat split; auto.
  - eapply accepted_decimal_sizeable; eauto.
  - rewrite L5. lia.
Qed.

(** ** Invariants of the registry *)

Lemma isIdUnique_spec employees id :
  isIdUnique employees id = true <-> ~ In id (map getId employees).
Proof.
  unfold isIdUnique. rewrite negb_true_iff, <- not_true_iff_false, existsb_exists.
  rewrite in_map_iff. split; intros H (emp & H1 & H2); apply H; exists emp.
  - split; [exact H2 | apply String.eqb_eq; exact H1].
  - split; [apply String.eqb_eq; tauto | tauto].
Qed.

Lemma NoDup_snoc {A} (l : list A) x : NoDup l -> ~ In x l -> NoDup (l ++ [x]).
Proof.
  induction l as [|a l IH]; intros Hnd Hx; cbn.
  - constructor; [intros [] | constructor].
  - inversion Hnd; subst. constructor.
    + rewrite in_app_iff. cbn. intros [H|[H|[]]]; [tauto|]. subst. apply Hx. left; reflexivity.
    + apply IH; [assumption|]. intros H. apply Hx. right; exact H.
Qed.

Lemma reachable_ids_distinct employees :
  reachable employees -> NoDup (map getId employees).
Proof.
  induction 1 as [|es w es' w' _ IH H|es w es' w' _ IH H|es w es' w' _ IH H].
  - constructor.
  - apply addFullTimeEmployee_done in H as (id & name & s & -> & Hu & _).
    rewrite map_app. apply NoDup_snoc; [exact IH | apply isIdUnique_spec; exact Hu].
  - apply addPartTimeEmployee_done in H as (id & name & a & b & -> & Hu & _).
    rewrite map_app. apply NoDup_snoc; [exact IH | apply isIdUnique_spec; exact Hu].
  - apply addContractualEmployee_done in H as (id & name & a & b & -> & Hu & _).
    rewrite map_app. apply NoDup_snoc; [exact IH | apply isIdUnique_spec; exact Hu].
Qed.

Lemma Forall_snoc {A} (P : A -> Prop) l x : Forall P l -> P x -> Forall P (l ++ [x]).
Proof. intros Hl Hx. apply Forall_app. auto. Qed.

Lemma reachable_well_formed employees :
  reachable employees -> Forall well_formed employees.
Proof.
  induction 1 as [|es w es' w' _ IH H|es w es' w' _ IH H|es w es' w' _ IH H].
  - constructor.
  - apply addFullTimeEmployee_done in H as (id & name & s & -> & _ & _ & Hs & _).
    apply Forall_snoc; [exact IH | exact Hs].
  - apply addPartTimeEmployee_done in H
      as (id & name & a & b & -> & _ & _ & Ha & _ & Hb & _).
    apply Forall_snoc; [exact IH | split; assumption].
  - apply addContractualEmployee_done in H
      as (id & name & a & n & -> & _ & _ & Ha & Hn & _).
    apply Forall_snoc; [exact IH | split; assumption].
Qed.

Lemma reachable_decimals_positive employees :
  reachable employees -> Forall (fun emp => decimals_positive emp = true) employees.
Proof.
  induction 1 as [|es w es' w' _ IH H|es w es' w' _ IH H|es w es' w' _ IH H].
  - constructor.
  - apply addFullTimeEmployee_done in H as (id & name & s & -> & _ & Hs & _).
    apply Forall_snoc; [exact IH | exact Hs].
  - apply addPartTimeEmployee_done in H
      as (id & name & a & b & -> & _ & Ha & _ & Hb & _).
    apply Forall_snoc; [exact IH | cbn; rewrite Ha, Hb; reflexivity].
  - apply addContractualEmployee_done in H
      as (id & name & a & n & -> & _ & Ha & _).
    apply Forall_snoc; [exact IH | exact Ha].
Qed.

(** ** The sample session *)

Lemma sample_reachable : reachable sample_registry.
Proof.
  eapply (reach_contractual [ann; bo; cy] (typed ["E4"; "Di"; "150"; "0"])).
  - eapply (reach_contractual [ann; bo] (typed ["E3"; "Cy"; "200"; "3"])).
    + eapply (reach_part [ann] (typed ["E2"; "Bo"; "10.5"; "8"])).
      * eapply (reach_full [] (typed ["E1"; "Ann"; "1000.00"])).
        -- exact reach_start.
        -- reflexivity.
      * reflexivity.
    + reflexivity.
  - reflexivity.
Defined.

(** * Properties of the specification *)

(** ** Identifier uniqueness *)

(** C1. [isIdUnique] answers [true] exactly when no record of the registry
    carries the identifier; an identifier returned by [getEmployeeId] is not
    empty, passes [isValidID] and is carried by no record; and in every
    registry reached by [add] operations the identifiers are pairwise
    distinct. *)
Theorem registry_ids_unique :
  (forall employees id,
     isIdUnique employees id = true <->
     forall emp, In emp employees -> getId emp <> id) /\
  (forall employees w id w',
     getEmployeeId employees w = Done id w' ->
     id <> "" /\ isValidID id = true /\
     forall emp, In emp employees -> getId emp <> id) /\
  (forall employees, reachable employees -> NoDup (map getId employees)).
Proof.
  assert (Hspec : forall employees id,
     isIdUnique employees id = true <->
     forall emp, In emp employees -> getId emp <> id).
  { intros employees id. rewrite isIdUnique_spec, in_map_iff. split.
    - intros H emp Hin Heq. apply H. exists emp. auto.
    - intros H (emp & Heq & Hin). exact (H emp Hin Heq). }
  split; [exact Hspec | split].
  - intros employees w id w' H.
    apply getEmployeeId_done in H as (He & Hv & Hu & _). repeat split.
    + intros ->. discriminate He.
    + exact Hv.
    + apply Hspec. exact Hu.
  - exact reachable_ids_distinct.
Qed.

Lemma registry_ids_unique_witness : NoDup (map getId sample_registry).
Proof. exact (proj2 (proj2 registry_ids_unique) sample_registry sample_reachable). Defined.

(** ** Pay computation *)

(** C2. [calculateSalary] is the pay formula of each variant: the monthly
    salary, the hourly wage times the hours worked, the payment per project
    times the projects completed, with the multiplication of [double].  On
    the records the sample session stores, 10.5 x 8 is 84 and 200 x 3 is
    600, exactly. *)
Theorem calculateSalary_formula :
  (forall id name salary,
     calculateSalary (FullTimeEmployee id name salary) = salary) /\
  (forall id name hourlyWage hoursWorked,
     calculateSalary (PartTimeEmployee id name hourlyWage hoursWorked)
     = dmul hourlyWage hoursWorked) /\
  (forall id name paymentPerProject projectsCompleted,
     calculateSalary (ContractualEmployee id name paymentPerProject projectsCompleted)
     = dmul paymentPerProject (double_of_int projectsCompleted)) /\
  (addPartTimeEmployee [] (typed ["E2"; "Bo"; "10.5"; "8"]) =
     Done [bo] {| cin := [];
                  cout := [Text "Enter Employee ID: "; Text "Enter Employee Name: ";
                           Text "Enter Hourly Wage: $";
                           Text "Enter Number of Hours Worked: ";
                           Text "Part-time employee added successfully!"; Endl] |} /\
   calculateSalary bo = double_of_int 84) /\
  (addContractualEmployee [] (typed ["E3"; "Cy"; "200"; "3"]) =
     Done [cy] {| cin := [];
                  cout := [Text "Enter Employee ID: "; Text "Enter Employee Name: ";
                           Text "Enter Payment Per Project: $";
                           Text "Enter Number of Projects Completed: ";
                           Text "Contractual employee added successfully!"; Endl] |} /\
   calculateSalary cy = double_of_int 600).
Proof. repeat split. Qed.

(** ** Integer parsing *)

Lemma integer_literal_no_space T : integer_literal T = true -> skip_space T = T.
Proof.
  destruct T as [|c t]; [reflexivity|]. cbn [integer_literal skip_space].
  destruct (isspace c) eqn:Hs; [|reflexivity].
  destruct (Ascii.eqb c "-") eqn:Em.
  { apply Ascii.eqb_eq in Em. subst c. discriminate Hs. }
  destruct (Ascii.eqb c "+") eqn:Ep.
  { apply Ascii.eqb_eq in Ep. subst c. discriminate Hs. }
  cbn [orb digits1 empty negb andb all_digits]. intros H.
  apply andb_true_iff in H as [Hd _]. exfalso.
  unfold isspace, isdigit in *.
  rewrite andb_true_iff, !N.leb_le in Hd.
  rewrite orb_true_iff, andb_true_iff, N.eqb_eq, !N.leb_le in Hs. lia.
Qed.

(** C3, as the code has it.  [isValidInteger] succeeds with [v] exactly when
    the text, after the white space [stoi] skips at its start, is an
    optional sign followed by one or more digits and nothing else, and the
    number [v] it denotes fits an [int]. *)
Theorem isValidInteger_iff T v :
  isValidInteger T = Some v <->
  integer_literal (skip_space T) = true /\
  v = literal_value (skip_space T) /\
  INT_MIN <= v <= INT_MAX.
Proof.
  rewrite isValidInteger_spec. unfold in_int_range.
  rewrite andb_true_iff, !Z.leb_le. tauto.
Qed.

(** C3, as stated, fails in both directions: a text with a leading blank is
    accepted, and a well-formed literal beyond the [int] range is refused. *)
Lemma isValidInteger_not_exactly_literals :
  (isValidInteger " 12" = Some 12 /\ integer_literal " 12" = false) /\
  (integer_literal "99999999999999" = true /\
   isValidInteger "99999999999999" = None).
Proof. repeat split. Qed.

(** C9. A well-formed integer literal whose value is outside the [int] range
    makes [stoi] raise [out_of_range]; [isValidInteger] catches it and
    answers [false]. *)
Theorem isValidInteger_out_of_range T :
  integer_literal T = true ->
  literal_value T < INT_MIN \/ INT_MAX < literal_value T ->
  stoi T = Raise out_of_range /\ isValidInteger T = None.
Proof.
  intros Hl Hr. pose proof (integer_literal_no_space T Hl) as Hs.
  assert (Hst : stoi T = Raise out_of_range).
  { rewrite stoi_literal by (rewrite Hs; exact Hl). rewrite Hs.
    unfold in_int_range.
    destruct (INT_MIN <=? literal_value T) eqn:H1;
      destruct (literal_value T <=? INT_MAX) eqn:H2; try reflexivity.
    apply Z.leb_le in H1, H2. lia. }
  split; [exact Hst|]. unfold isValidInteger. rewrite Hst. reflexivity.
Qed.

Lemma isValidInteger_out_of_range_witness :
  stoi "99999999999999" = Raise out_of_range /\
  isValidInteger "99999999999999" = None.
Proof.
  apply (isValidInteger_out_of_range "99999999999999").
  - reflexivity.
  - right. reflexivity.
Defined.

(** ** Decimal parsing *)

(** X16. What holds of [isValidDecimal] on every text: a text that does not match
    is refused; a matching text is converted to the double nearest to the
    number it denotes, unless that is beyond the finite doubles, in which
    case [out_of_range] leaves the function. *)
Lemma isValidDecimal_spec T :
  (~ decimal_shape T -> isValidDecimal T = Normal None) /\
  (forall ip, T = ip -> digits1 ip = true ->
     isValidDecimal T =
       if is_infinite (decimal_value ip "") then Raise out_of_range
       else Normal (Some (decimal_value ip ""))) /\
  (forall ip fp, T = (ip ++ "." ++ fp)%string ->
     digits1 ip = true -> digits1 fp = true -> (length fp <= 2)%nat ->
     isValidDecimal T =
       if is_infinite (decimal_value ip fp) then Raise out_of_range
       else Normal (Some (decimal_value ip fp))).
Proof.
  split; [apply isValidDecimal_no_match | split].
  - intros ip ->. apply isValidDecimal_integer.
  - intros ip fp ->. apply isValidDecimal_fraction.
Qed.

Lemma isValidDecimal_examples :
  isValidDecimal "12" = Normal (Some (double_of_int 12)) /\
  isValidDecimal "12.5" = Normal (Some (SFdiv prec emax (double_of_int 25) (double_of_int 2))) /\
  isValidDecimal "12.345" = Normal None /\
  isValidDecimal "abc" = Normal None /\
  isValidDecimal "-1.5" = Normal None.
Proof. repeat split. Qed.

(** C4, at the input where the code departs from it.  A one followed by 309
    zeros has the shape the specification asks for, yet [isValidDecimal] neither
    succeeds nor fails on it: [stod] raises [out_of_range], nothing catches
    it, and the prompt that asked for the number ends the program. *)
Theorem isValidDecimal_overflow_uncaught :
  decimal_shape huge_decimal /\
  isValidDecimal huge_decimal = Raise out_of_range /\
  (forall prompt rest out,
     getValidDecimalInput prompt {| cin := huge_decimal :: rest; cout := out |}
     = Terminated {| cin := rest; cout := out ++ [Text prompt] |}).
Proof.
  assert (H : isValidDecimal huge_decimal = Raise out_of_range)
    by (vm_compute; reflexivity).
  split; [|split].
  - exists huge_decimal. split; [vm_compute; reflexivity | left; reflexivity].
  - exact H.
  - intros prompt rest out. unfold getValidDecimalInput, prompting.
    cbn [cin cout prompt_loop]. rewrite H. reflexivity.
Qed.

(** ** Prompts for numbers *)

(** C6. A value returned by [getValidDecimalInput] is the conversion of a
    line that was entered and that [isValidDecimal] accepted, and it is
    greater than zero; so in every reachable registry every decimal field
    of every record is greater than zero. *)
Theorem getValidDecimalInput_positive :
  (forall prompt w value w',
     getValidDecimalInput prompt w = Done value w' ->
     (exists input, In input (cin w) /\ isValidDecimal input = Normal (Some value)) /\
     dlt dzero value = true) /\
  (forall employees,
     reachable employees ->
     forall emp, In emp employees -> decimals_positive emp = true).
Proof.
  split.
  - intros prompt w value w' H.
    apply getValidDecimalInput_done in H as (Hi & Hp & _). auto.
  - intros employees Hr emp Hin.
    pose proof (reachable_decimals_positive _ Hr) as Hall.
    rewrite Forall_forall in Hall. apply Hall. exact Hin.
Qed.

Lemma getValidDecimalInput_positive_witness : decimals_positive bo = true.
Proof.
  apply (proj2 getValidDecimalInput_positive sample_registry sample_reachable).
  cbn. auto.
Defined.

(** C10. [getValidNumericInput] accepts ["0"], and a contractor with no
    project completed can be stored.  In every reachable registry the pay of
    a contractual record is at least zero, and is zero exactly when no
    project is completed; the pay of a full-time or part-time record is
    greater than zero. *)
Theorem contractual_pay_zero_iff :
  (forall prompt rest out,
     getValidNumericInput prompt {| cin := "0" :: rest; cout := out |}
     = Done 0 {| cin := rest; cout := out ++ [Text prompt] |}) /\
  (reachable sample_registry /\ In di sample_registry) /\
  (forall employees,
     reachable employees ->
     forall emp, In emp employees ->
       match emp with
       | ContractualEmployee _ _ _ projectsCompleted =>
           dle dzero (calculateSalary emp) = true /\
           (deq (calculateSalary emp) dzero = true <-> projectsCompleted = 0)
       | _ =>
           dlt dzero (calculateSalary emp) = true /\
           deq (calculateSalary emp) dzero = false
       end).
Proof.
  split; [reflexivity | split].
  - split; [exact sample_reachable | cbn; auto].
  - intros employees Hr emp Hin.
    pose proof (reachable_well_formed _ Hr) as Hall.
    rewrite Forall_forall in Hall. specialize (Hall emp Hin).
    destruct emp as [id name s | id name a b | id name p n];
      cbn [well_formed calculateSalary] in *.
    + destruct (sizeable_positive _ _ Hall) as (H1 & _ & H3). auto.
    + destruct Hall as [Ha Hb].
      destruct (dmul_big _ _ _ _ Ha Hb) as [Hi|Hs]; [lia | rewrite Hi; auto |].
      destruct (sizeable_positive _ _ Hs) as (H1 & _ & H3). auto.
    + destruct Hall as [Hp Hn].
      destruct (Z.eq_dec n 0) as [->|Hnz].
      * destruct Hp as (m & e & -> & _). cbn. tauto.
      * assert (Hpay : dle dzero (dmul p (double_of_int n)) = true /\
                       deq (dmul p (double_of_int n)) dzero = false).
        { destruct (double_of_int_big n) as [Hi|Hs]; [lia | |].
          - rewrite Hi. destruct Hp as (m & e & -> & _). cbn. auto.
          - destruct (dmul_big _ _ _ _ Hp Hs) as [Hi|Hs']; [lia | rewrite Hi; auto |].
            destruct (sizeable_positive _ _ Hs') as (_ & H2 & H3). auto. }
        destruct Hpay as [H1 H2]. rewrite H2. split; [exact H1|].
        split; [discriminate | intros; contradiction].
Qed.

Lemma contractual_pay_zero_iff_witness :
  dle dzero (calculateSalary di) = true /\
  (deq (calculateSalary di) dzero = true <-> 0 = 0).
Proof.
  apply (proj2 (proj2 contractual_pay_zero_iff) sample_registry sample_reachable di).
  cbn. auto.
Defined.

(** ** The report *)

Lemma report_loop_blocks employees : forall out,
  report_loop employees out = out ++ flat_map report_block employees.
Proof.
  induction employees as [|emp rest IH]; intros out; cbn [report_loop flat_map].
  - rewrite app_nil_r. reflexivity.
  - rewrite IH. unfold report_block. rewrite <- !app_assoc. reflexivity.
Qed.

(** C7. On an empty registry the report is the notice and nothing else; on a
    registry with records it is the header line followed by the block of
    each record, in the order of insertion. *)
Theorem displayPayrollReport_layout w :
  displayPayrollReport [] w
  = Done tt {| cin := cin w;
               cout := cout w ++ [Text "No employees to display."; Endl] |} /\
  (forall emp rest,
     displayPayrollReport (emp :: rest) w
     = Done tt {| cin := cin w;
                  cout := cout w
                          ++ [Text "------ Employee Payroll Report ------"; Endl]
                          ++ flat_map report_block (emp :: rest) |}).
Proof.
  split; [reflexivity|]. intros emp rest. unfold displayPayrollReport.
  rewrite report_loop_blocks, <- app_assoc. reflexivity.
Qed.




(** ** The menu driver *)

Lemma displayPayrollReport_done employees w u w' :
  displayPayrollReport employees w = Done u w' -> cin w' = cin w.
Proof. destruct employees; intros H; inversion H; reflexivity. Qed.

Lemma main_iteration_reads employees w result w' :
  main_iteration employees w = Done result w' ->
  exists choice rest,
    cin w = choice :: rest /\
    snd result = negb (String.eqb choice "5") /\
    (List.length (cin w') <= List.length rest)%nat.
Proof.
  unfold main_iteration. intros H.
  apply bind_done in H as (u & w1 & Hp & H). apply print_done in Hp as [Hc _].
  apply bind_done in H as (choice & w2 & Hg & H).
  unfold getline in Hg. rewrite Hc in Hg.
  destruct (cin w) as [|line rest] eqn:Hcin; [discriminate|].
  inversion Hg; subst choice w2; clear Hg.
  apply bind_done in H as (es & w3 & Hd & H). inversion H; subst; clear H.
  exists line, rest. repeat split.
  destruct (isValidMenuNumber line 1 5) as [option|].
  - destruct option as [|p|p]; cbv beta iota in Hd; unfold ret in Hd;
      [inversion Hd; subst; cbn; lia | | inversion Hd; subst; cbn; lia].
    do 3 (try destruct p as [p|p|]); cbv beta iota in Hd; unfold ret in Hd;
      first
        [ solve [inversion Hd; subst; cbn; lia]
        | solve [apply addFullTimeEmployee_done in Hd as (? & ? & ? & _ & _ & _ & _ & L);
                 cbn in L; lia]
        | solve [apply addPartTimeEmployee_done in Hd
                   as (? & ? & ? & ? & _ & _ & _ & _ & _ & _ & L);
                 cbn in L; lia]
        | solve [apply addContractualEmployee_done in Hd
                   as (? & ? & ? & ? & _ & _ & _ & _ & _ & L);
                 cbn in L; lia]
        | solve [apply bind_done in Hd as (u' & w4 & Hpr & Hr); inversion Hr; subst;
                 apply print_done in Hpr as [-> _]; cbn; lia]
        | solve [apply bind_done in Hd as (u' & w4 & Hpr & Hr); inversion Hr; subst;
                 apply displayPayrollReport_done in Hpr as ->; cbn; lia] ].
  - apply bind_done in Hd as (u' & w4 & Hpr & Hr). inversion Hr; subst.
    apply print_done in Hpr as [-> _]. cbn. lia.
Qed.

(** The loop of [main] does not need more fuel than there are lines. *)
Lemma main_loop_returns fuel : forall employees w,
  (List.length (cin w) < fuel)%nat -> main_loop fuel employees w <> None.
Proof.
  induction fuel as [|fuel IH]; intros employees w Hlen; [lia|].
  cbn [main_loop].
  destruct (main_iteration employees w) as [[es again] w'| |] eqn:Hit; try discriminate.
  destruct again; [|discriminate].
  apply main_iteration_reads in Hit as (choice & rest & Hc & _ & Hl).
  apply IH. rewrite Hc in Hlen. cbn in Hlen. lia.
Qed.

Lemma main_returns lines : main lines <> None.
Proof. apply main_loop_returns. cbn. lia. Qed.

(** X13. One pass of the driver leaves the loop exactly when the line it
    read at the menu is the text ["5"]. *)
Lemma main_iteration_exit employees w es again w' :
  main_iteration employees w = Done (es, again) w' ->
  (again = false <-> exists rest, cin w = "5" :: rest).
Proof.
  intros H. apply main_iteration_reads in H as (choice & rest & Hc & Ha & _).
  cbn in Ha. subst again. rewrite Hc, negb_false_iff, String.eqb_eq. split.
  - intros ->. eauto.
  - intros (r & Hr). inversion Hr. reflexivity.
Qed.

(** X14. A line that is not accepted as a choice from 1 to 5 gets the
    diagnostic, the registry is kept and the loop goes on to show the menu
    again. *)
Lemma main_iteration_rejects employees choice rest out :
  isValidMenuNumber choice 1 5 = None ->
  main_iteration employees {| cin := choice :: rest; cout := out |}
  = Done (employees, true)
      {| cin := rest;
         cout := (out ++ menu)
                 ++ [Text "Invalid choice. Please enter a number between 1 and 5.";
                     Endl] |}.
Proof.
  intros Hc.
  assert (Hne : String.eqb choice "5" = false).
  { destruct (String.eqb choice "5") eqn:E; [|reflexivity].
    apply String.eqb_eq in E. subst choice. discriminate Hc. }
  unfold main_iteration, bind, print, getline. cbn [cin cout].
  rewrite Hc, Hne. reflexivity.
Qed.

(** C5, at the input where the code departs from it.  The line ["05"] is
    accepted as menu choice 5 and the farewell is printed, but the loop
    condition compares the text read with ["5"], so the loop goes on: the
    program shows the menu again and waits for the next line. *)
Theorem accepted_five_does_not_exit :
  isValidMenuNumber "05" 1 5 = Some 5 /\
  (forall employees rest out,
     main_iteration employees {| cin := "05" :: rest; cout := out |}
     = Done (employees, true)
         {| cin := rest;
            cout := (out ++ menu) ++ [Text "Exiting program. Goodbye!"; Endl] |}) /\
  main ["05"]
  = Some (Blocked {| cin := [];
                     cout := (menu ++ [Text "Exiting program. Goodbye!"; Endl])
                             ++ menu |}).
Proof. repeat split. Qed.

(** ** Binary64 rounding: when the result is finite *)

Lemma Zdigits2_unique m k :
  0 < k -> 2 ^ (k - 1) <= m < 2 ^ k -> Zdigits2 m = k.
Proof.
  intros Hk [Hlo Hhi].
  assert (Hm : 0 < m).
  { assert (0 < 2 ^ (k - 1)) by (apply Z.pow_pos_nonneg; lia). lia. }
  destruct (Zdigits2_bounds m Hm) as (Hd & Hdlo & Hdhi).
  set (d := Zdigits2 m) in *.
  destruct (Z.lt_trichotomy d k) as [Hlt | [Heq | Hgt]]; [| exact Heq |].
  - assert (2 ^ d <= 2 ^ (k - 1)) by (apply Z.pow_le_mono_r; lia). lia.
  - assert (2 ^ k <= 2 ^ (d - 1)) by (apply Z.pow_le_mono_r; lia). lia.
Qed.

Lemma shr_fexp_exact m e l :
  2 ^ 52 <= m -> -1021 <= e ->
  shr_m (fst (shr_fexp prec emax m e l)) = m / 2 ^ (Zdigits2 m - 53) /\
  snd (shr_fexp prec emax m e l) = e + (Zdigits2 m - 53) /\
  53 <= Zdigits2 m.
Proof.
  intros Hm He. unfold shr_fexp.
  assert (0 < m) as Hpos by (change (2 ^ 52) with 4503599627370496 in Hm; lia).
  destruct (Zdigits2_bounds m Hpos) as (Hd0 & Hlo & Hhi).
  set (d := Zdigits2 m) in *.
  assert (Hd : 53 <= d).
  { destruct (Z_lt_le_dec d 53) as [Hlt|]; [|assumption].
    assert (2 ^ d <= 2 ^ 52) by (apply Z.pow_le_mono_r; lia). lia. }
  assert (Hf : fexp prec emax (d + e) - e = d - 53).
  { unfold fexp, emin, prec, emax. lia. }
  rewrite Hf.
  destruct (shr_spec (shr_record_of_loc m l) e (d - 53)) as [H1 H2].
  { rewrite shr_m_of_loc. lia. }
  { lia. }
  rewrite H1, H2, shr_m_of_loc. auto.
Qed.

(** Rounding stays finite when the exponent has room for a carry, or when
    it just fits and the mantissa cannot carry. *)
Lemma binary_round_aux_finite mx ex lx :
  2 ^ 52 <= mx -> -1021 <= ex ->
  ex + (Zdigits2 mx - 53) <= 970 \/
  (ex + (Zdigits2 mx - 53) <= 971 /\ mx / 2 ^ (Zdigits2 mx - 53) + 1 < 2 ^ 53) ->
  sizeable ex (binary_round_aux prec emax false mx ex lx).
Proof.
  intros Hm He Hroom. unfold binary_round_aux.
  destruct (shr_fexp_big mx ex lx Hm He) as [[Hlo Hhi] He1].
  destruct (shr_fexp_exact mx ex lx Hm He) as (Hx1 & Hx2 & Hd).
  destruct (shr_fexp prec emax mx ex lx) as [mrs1 e1]. cbn [fst snd] in *.
  pose proof (round_nearest_even_bounds (shr_m mrs1) (loc_of_shr_record mrs1)) as Hr.
  set (m2 := round_nearest_even (shr_m mrs1) (loc_of_shr_record mrs1)) in *.
  assert (Hm2 : 2 ^ 52 <= m2) by lia.
  assert (He1' : -1021 <= e1) by lia.
  destruct (shr_fexp_big m2 e1 loc_Exact Hm2 He1') as [[Hlo2 Hhi2] He2].
  destruct (shr_fexp_exact m2 e1 loc_Exact Hm2 He1') as (Hy1 & Hy2 & Hd2).
  assert (Hd2' : Zdigits2 m2 <= 54).
  { destruct (Zdigits2_bounds m2) as (_ & Hl & _);
      [change (2 ^ 52) with 4503599627370496 in Hm2; lia|].
    destruct (Z_le_gt_dec (Zdigits2 m2) 54) as [|Hgt]; [assumption|].
    assert (2 ^ 54 <= 2 ^ (Zdigits2 m2 - 1)) by (apply Z.pow_le_mono_r; lia).
    change (2 ^ 54) with 18014398509481984 in *.
    change (2 ^ 53) with 9007199254740992 in *. lia. }
  assert (Hfit : snd (shr_fexp prec emax m2 e1 loc_Exact) <= emax - prec).
  { rewrite Hy2. unfold emax, prec. destruct Hroom as [Hroom | [Hroom Hcarry]].
    - lia.
    - assert (Zdigits2 m2 = 53); [|lia].
      apply Zdigits2_unique; [lia|]. change (53 - 1) with 52. lia. }
  destruct (shr_fexp prec emax m2 e1 loc_Exact) as [mrs2 e2]. cbn [fst snd] in *.
  destruct (shr_m mrs2) as [|m|m] eqn:Em.
  - change (2 ^ 52) with 4503599627370496 in Hlo2. lia.
  - apply Z.leb_le in Hfit. rewrite Hfit.
    exists m, e2. repeat split; [exact Hlo2 | lia].
  - change (2 ^ 52) with 4503599627370496 in Hlo2. lia.
Qed.

Lemma SFdiv_core_exact p D :
  Zdigits2 (Z.pos D) <= 7 ->
  let e' := Z.min (Zdigits2 (Z.pos p) - Zdigits2 (Z.pos D) - 53) 0 in
  fst (fst (SFdiv_core_binary prec emax (Z.pos p) 0 (Z.pos D) 0))
    = (Z.pos p * 2 ^ (- e')) / Z.pos D /\
  snd (fst (SFdiv_core_binary prec emax (Z.pos p) 0 (Z.pos D) 0)) = e'.
Proof.
  intros HD e'. unfold SFdiv_core_binary.
  destruct (Zdigits2_bounds (Z.pos p)) as (Hd1 & _); [lia|].
  destruct (Zdigits2_bounds (Z.pos D)) as (Hd2 & _); [lia|].
  assert (He : Z.min (fexp prec emax (Zdigits2 (Z.pos p) + 0 - (Zdigits2 (Z.pos D) + 0)))
                     (0 - 0) = e').
  { unfold fexp, emin, prec, emax. subst e'. lia. }
  rewrite He.
  assert (Hm' : match 0 - 0 - e' with
                | 0 => Z.pos p
                | Z.pos _ => Z.shiftl (Z.pos p) (0 - 0 - e')
                | Z.neg _ => 0
                end = Z.pos p * 2 ^ (- e')).
  { replace (0 - 0 - e') with (- e') by lia.
    destruct (- e') as [|s|s] eqn:Es.
    - rewrite Z.pow_0_r. lia.
    - rewrite Z.shiftl_mul_pow2 by lia. reflexivity.
    - subst e'. lia. }
  rewrite Hm'. unfold Z.div.
  destruct (Z.div_eucl (Z.pos p * 2 ^ (- e')) (Z.pos D)) as [q r]. cbn [fst snd]. auto.
Qed.

(** A decimal below [10 ^ 308] is within the finite doubles. *)
Lemma nearest_decimal_finite p k :
  (k <= 2)%nat ->
  Z.pos p < 10 ^ Z.of_nat k * 10 ^ 308 ->
  sizeable (-59) (nearest_decimal (Z.pos p) k).
Proof.
  intros Hk Hp. unfold nearest_decimal, SFdiv.
  set (D := Z.to_pos (10 ^ Z.of_nat k)).
  assert (HD : Zdigits2 (Z.pos D) <= 7).
  { subst D. destruct k as [|[|[|k]]]; [vm_compute; discriminate .. | lia]. }
  assert (HDv : Z.pos D = 10 ^ Z.of_nat k).
  { subst D. rewrite Z2Pos.id; [reflexivity | apply Z.pow_pos_nonneg; lia]. }
  destruct (SFdiv_core_big p D HD) as [Hq He].
  destruct (SFdiv_core_exact p D HD) as [Hqv Hev].
  destruct (Zdigits2_bounds (Z.pos p)) as (Hd1 & Hlo1 & Hhi1); [lia|].
  destruct (Zdigits2_bounds (Z.pos D)) as (Hd2 & Hlo2 & Hhi2); [lia|].
  set (d1 := Zdigits2 (Z.pos p)) in *. set (d2 := Zdigits2 (Z.pos D)) in *.
  destruct (SFdiv_core_binary prec emax (Z.pos p) 0 (Z.pos D) 0) as [[q e] l].
  cbn [fst snd xorb] in *.
  assert (Hq0 : 0 < q) by (change (2 ^ 52) with 4503599627370496 in Hq; lia).
  destruct (Zdigits2_bounds q Hq0) as (Hdq & Hqlo & Hqhi).
  eapply sizeable_weaken; [exact He|].
  apply binary_round_aux_finite; [exact Hq | lia |].
  destruct (Z_le_gt_dec 0 (d1 - d2 - 53)) as [Hbig | Hsmall].
  - (* no scaling: the quotient is the integer part *)
    assert (He0 : e = 0) by lia. subst e.
    rewrite Z.min_r in Hqv by lia. change (- 0) with 0 in Hqv.
    rewrite Z.pow_0_r, Z.mul_1_r in Hqv.
    assert (Hq308 : q < 10 ^ 308).
    { rewrite Hqv. apply Z.div_lt_upper_bound; [lia|]. rewrite HDv. exact Hp. }
    assert (Hdq1024 : Zdigits2 q <= 1024).
    { destruct (Z_le_gt_dec (Zdigits2 q) 1024) as [|Hgt]; [assumption|].
      assert (2 ^ 1024 <= 2 ^ (Zdigits2 q - 1)) by (apply Z.pow_le_mono_r; lia).
      assert (10 ^ 308 < 2 ^ 1024) by (vm_compute; reflexivity). lia. }
    destruct (Z_le_gt_dec (Zdigits2 q) 1023) as [|Hd1024]; [left; lia|].
    right. replace (Zdigits2 q) with 1024 by lia. split; [lia|].
    change (1024 - 53) with 971.
    assert (q / 2 ^ 971 <= 10 ^ 308 / 2 ^ 971).
    { apply Z.div_le_mono; [vm_compute; reflexivity | lia]. }
    assert (10 ^ 308 / 2 ^ 971 + 1 < 2 ^ 53) by (vm_compute; reflexivity).
    lia.
  - (* the dividend is scaled up to 53 + d2 bits *)
    left. rewrite Z.min_l in Hqv, Hev by lia.
    assert (Hq54 : q < 2 ^ 54).
    { rewrite Hqv. apply Z.div_lt_upper_bound; [lia|].
      apply Z.lt_le_trans with (2 ^ (d2 - 1) * 2 ^ 54).
      - rewrite <- Z.pow_add_r by lia.
        apply Z.lt_le_trans with (2 ^ d1 * 2 ^ (- (d1 - d2 - 53))).
        + apply Z.mul_lt_mono_pos_r; [apply Z.pow_pos_nonneg; lia | exact Hhi1].
        + rewrite <- Z.pow_add_r by lia. apply Z.pow_le_mono_r; lia.
      - apply Z.mul_le_mono_nonneg_r; [apply Z.pow_nonneg; lia | exact Hlo2]. }
    assert (Zdigits2 q <= 54).
    { destruct (Z_le_gt_dec (Zdigits2 q) 54) as [|Hgt]; [assumption|].
      assert (2 ^ 54 <= 2 ^ (Zdigits2 q - 1)) by (apply Z.pow_le_mono_r; lia). lia. }
    lia.
Qed.

(** ** Decimal texts of at most 308 integer digits *)

Lemma digits_value_lt s :
  all_digits s = true -> digits_value s < 10 ^ Z.of_nat (length s).
Proof.
  induction s as [|c s IH]; cbn [all_digits digits_value length].
  - intros _. change (10 ^ Z.of_nat 0) with 1. lia.
  - rewrite andb_true_iff. intros [Hc Hs]. apply digit_value_range in Hc.
    specialize (IH Hs). rewrite Nat2Z.inj_succ, Z.pow_succ_r by lia.
    assert (0 < 10 ^ Z.of_nat (length s)) by (apply Z.pow_pos_nonneg; lia). nia.
Qed.

Lemma decimal_value_finite ip fp :
  digits1 ip = true -> all_digits fp = true ->
  (length fp <= 2)%nat -> (length ip <= 308)%nat ->
  is_infinite (decimal_value ip fp) = false.
Proof.
  unfold digits1. rewrite andb_true_iff. intros [_ Hip] Hfp Hk Hlen.
  unfold decimal_value.
  assert (Hall : all_digits (ip ++ fp) = true) by (rewrite all_digits_app, Hip, Hfp; reflexivity).
  pose proof (digits_value_nonneg _ Hall) as Hnn.
  pose proof (digits_value_lt _ Hall) as Hlt.
  destruct (digits_value (ip ++ fp)) as [|p|p]; [reflexivity | | lia].
  destruct (nearest_decimal_finite p (length fp) Hk) as (m & e & -> & _); [|reflexivity].
  eapply Z.lt_le_trans; [exact Hlt|].
  rewrite length_append, Nat2Z.inj_add, Z.pow_add_r, Z.mul_comm by lia.
  apply Z.mul_le_mono_nonneg_l; [apply Z.pow_nonneg; lia|].
  apply Z.pow_le_mono_r; lia.
Qed.

Lemma isValidDecimal_short T e :
  (length T <= 308)%nat -> isValidDecimal T <> Raise e.
Proof.
  intros Hlen H.
  assert (Hs : decimal_shape T).
  { apply decimalRegex_shape. unfold isValidDecimal in H.
    destruct (regex_match T decimalRegex); [reflexivity | discriminate]. }
  destruct Hs as (ip & Hip & [-> | (fp & Hfp & Hk & ->)]).
  - rewrite (isValidDecimal_integer _ Hip), decimal_value_finite in H;
      [discriminate | exact Hip | reflexivity | cbn; lia | exact Hlen].
  - rewrite (isValidDecimal_fraction _ _ Hip Hfp Hk), decimal_value_finite in H;
      [discriminate | exact Hip | | exact Hk |].
    + unfold digits1 in Hfp. apply andb_true_iff in Hfp as [_ Hfp]. exact Hfp.
    + rewrite length_append in Hlen. lia.
Qed.

(** ** Operations on the console compose *)

Create HintDb console discriminated.

Lemma reads_forward_ret {A} (a : A) : reads_forward (ret a).
Proof. intros w a' w' H. inversion H; subst. exists []. reflexivity. Qed.

Lemma reads_forward_print items : reads_forward (print items).
Proof. intros w a w' H. inversion H; subst. exists []. reflexivity. Qed.

Lemma reads_forward_getline : reads_forward getline.
Proof.
  intros w a w' H. unfold getline in H.
  destruct (cin w) as [|line rest]; [discriminate|].
  inversion H; subst. exists [a]. reflexivity.
Qed.

Lemma prompt_loop_forward {A} prompt (body : string -> verdict A) lines :
  forall out a w,
    prompt_loop prompt body lines out = Done a w ->
    exists consumed, lines = consumed ++ cin w.
Proof.
  induction lines as [|input lines IH]; intros out a w H; cbn [prompt_loop] in H.
  - discriminate.
  - destruct (body input) as [a'|diag|].
    + inversion H; subst. exists [input]. reflexivity.
    + apply IH in H as (consumed & ->). exists (input :: consumed). reflexivity.
    + discriminate.
Qed.

Lemma reads_forward_prompting {A} prompt (body : string -> verdict A) :
  reads_forward (prompting prompt body).
Proof. intros w a w' H. eapply prompt_loop_forward. exact H. Qed.

Lemma reads_forward_bind {A B} (m : M A) (k : A -> M B) :
  reads_forward m -> (forall a, reads_forward (k a)) -> reads_forward (bind m k).
Proof.
  intros Hm Hk w b w2 H. apply bind_done in H as (a & w1 & H1 & H2).
  apply Hm in H1 as (c1 & ->). apply Hk in H2 as (c2 & ->).
  exists (c1 ++ c2). rewrite app_assoc. reflexivity.
Qed.

Lemma reads_forward_short {A} (m : M A) w a w' :
  reads_forward m -> m w = Done a w' -> short_lines w -> short_lines w'.
Proof.
  intros Hm H Hs. apply Hm in H as (consumed & Hc). unfold short_lines in *.
  rewrite Hc in Hs. apply Forall_app in Hs. tauto.
Qed.

Lemma never_terminated_ret {A} (a : A) : never_terminated (ret a).
Proof. intros w w' _ H. discriminate H. Qed.

Lemma never_terminated_print items : never_terminated (print items).
Proof. intros w w' _ H. discriminate H. Qed.

Lemma never_terminated_getline : never_terminated getline.
Proof. intros w w' _ H. unfold getline in H. destruct (cin w); discriminate H. Qed.

Lemma prompt_loop_never_terminated {A} prompt (body : string -> verdict A) lines :
  Forall (fun line => body line <> Uncaught) lines ->
  forall out w, prompt_loop prompt body lines out <> Terminated w.
Proof.
  induction 1 as [|input lines Hin _ IH]; intros out w H; cbn [prompt_loop] in H.
  - discriminate.
  - destruct (body input) as [a'|diag|]; [discriminate | exact (IH _ _ H) | congruence].
Qed.

Lemma never_terminated_prompting {A} prompt (body : string -> verdict A) :
  (forall line, (length line <= 308)%nat -> body line <> Uncaught) ->
  never_terminated (prompting prompt body).
Proof.
  intros Hb w w' Hs. apply prompt_loop_never_terminated.
  unfold short_lines in Hs. eapply Forall_impl; [|exact Hs]. exact Hb.
Qed.

Lemma never_terminated_bind {A B} (m : M A) (k : A -> M B) :
  reads_forward m -> never_terminated m -> (forall a, never_terminated (k a)) ->
  never_terminated (bind m k).
Proof.
  intros Hf Hm Hk w w' Hs H. unfold bind in H.
  destruct (m w) as [a w1| |] eqn:E; [| discriminate | exact (Hm _ _ Hs E)].
  apply (Hk a w1 w'); [|exact H]. eapply reads_forward_short; eauto.
Qed.

#[local] Hint Resolve reads_forward_ret reads_forward_print reads_forward_getline
  reads_forward_prompting reads_forward_bind
  never_terminated_ret never_terminated_print never_terminated_getline
  never_terminated_bind : console.

Lemma reads_forward_getEmployeeId employees : reads_forward (getEmployeeId employees).
Proof. apply reads_forward_prompting. Qed.

Lemma never_terminated_getEmployeeId employees :
  never_terminated (getEmployeeId employees).
Proof.
  apply never_terminated_prompting. intros line _.
  destruct (empty line); [discriminate|].
  destruct (isValidID line); [|discriminate].
  destruct (isIdUnique employees line); discriminate.
Qed.

Lemma never_terminated_getEmployeeName : never_terminated getEmployeeName.
Proof.
  apply never_terminated_prompting. intros line _.
  destruct (empty line); discriminate.
Qed.

Lemma never_terminated_getValidDecimalInput prompt :
  never_terminated (getValidDecimalInput prompt).
Proof.
  apply never_terminated_prompting. intros line Hlen.
  pose proof (isValidDecimal_short line) as Hs.
  destruct (isValidDecimal line) as [[v|]|e].
  - destruct (dlt dzero v); discriminate.
  - discriminate.
  - exfalso. exact (Hs e Hlen eq_refl).
Qed.

Lemma never_terminated_getValidNumericInput prompt :
  never_terminated (getValidNumericInput prompt).
Proof.
  apply never_terminated_prompting. intros line _.
  destruct (isValidInteger line) as [v|]; [|discriminate].
  destruct (0 <=? v); discriminate.
Qed.

Lemma reads_forward_displayPayrollReport employees :
  reads_forward (displayPayrollReport employees).
Proof.
  intros w a w' H. apply displayPayrollReport_done in H. exists []. symmetry. exact H.
Qed.

Lemma never_terminated_displayPayrollReport employees :
  never_terminated (displayPayrollReport employees).
Proof. intros w w' _ H. destruct employees; discriminate H. Qed.

#[local] Hint Resolve reads_forward_getEmployeeId never_terminated_getEmployeeId
  never_terminated_getEmployeeName never_terminated_getValidDecimalInput
  never_terminated_getValidNumericInput reads_forward_displayPayrollReport
  never_terminated_displayPayrollReport : console.

Lemma reads_forward_add employees :
  reads_forward (addFullTimeEmployee employees) /\
  reads_forward (addPartTimeEmployee employees) /\
  reads_forward (addContractualEmployee employees).
Proof.
  unfold addFullTimeEmployee, addPartTimeEmployee, addContractualEmployee,
    getEmployeeName, getValidDecimalInput, getValidNumericInput.
  repeat split; repeat (apply reads_forward_bind; [|intros]); auto with console.
Qed.

Lemma never_terminated_add employees :
  never_terminated (addFullTimeEmployee employees) /\
  never_terminated (addPartTimeEmployee employees) /\
  never_terminated (addContractualEmployee employees).
Proof.
  unfold addFullTimeEmployee, addPartTimeEmployee, addContractualEmployee.
  repeat split;
    repeat (apply never_terminated_bind; [| |intros]);
    auto with console; apply reads_forward_prompting.
Qed.

Lemma menu_switch_cases {A} (P : M A -> Prop) (option : Z) (m1 m2 m3 m4 m5 m0 : M A) :
  P m1 -> P m2 -> P m3 -> P m4 -> P m5 -> P m0 ->
  P match option with
    | 1 => m1 | 2 => m2 | 3 => m3 | 4 => m4 | 5 => m5 | _ => m0
    end.
Proof.
  intros H1 H2 H3 H4 H5 H0.
  destruct option as [|p|p]; try exact H0.
  do 3 (try destruct p as [p|p|]); assumption.
Qed.

Lemma reads_forward_main_iteration employees :
  reads_forward (main_iteration employees).
Proof.
  destruct (reads_forward_add employees) as (Hf & Hp & Hc).
  unfold main_iteration.
  apply reads_forward_bind; [auto with console | intros _].
  apply reads_forward_bind; [auto with console | intros choice].
  apply reads_forward_bind; [|auto with console].
  destruct (isValidMenuNumber choice 1 5) as [option|]; [|auto with console].
  apply menu_switch_cases; auto with console.
Qed.

Lemma never_terminated_main_iteration employees :
  never_terminated (main_iteration employees).
Proof.
  destruct (reads_forward_add employees) as (Hf & Hp & Hc).
  destruct (never_terminated_add employees) as (Nf & Np & Nc).
  unfold main_iteration.
  apply never_terminated_bind; [auto with console .. | intros _].
  apply never_terminated_bind; [auto with console .. | intros choice].
  destruct (isValidMenuNumber choice 1 5) as [option|].
  - apply never_terminated_bind; [| | auto with console].
    + apply menu_switch_cases; auto with console.
    + apply menu_switch_cases; auto with console.
  - auto 6 with console.
Qed.

Lemma main_loop_never_terminated fuel : forall employees w w',
  short_lines w -> main_loop fuel employees w <> Some (Terminated w').
Proof.
  induction fuel as [|fuel IH]; intros employees w w' Hs; cbn [main_loop]; [discriminate|].
  destruct (main_iteration employees w) as [[es again] w1|w1|w1] eqn:Hit.
  - destruct again; [|discriminate].
    apply IH. eapply reads_forward_short; eauto using reads_forward_main_iteration.
  - discriminate.
  - exfalso. exact (never_terminated_main_iteration employees w w1 Hs Hit).
Qed.


(** ** Prompts: rejected lines, then the first acceptable one *)

Lemma prompting_accepts {A} prompt (body : string -> verdict A) input a rest out :
  body input = Accept a ->
  prompting prompt body {| cin := input :: rest; cout := out |}
  = Done a {| cin := rest; cout := out ++ [Text prompt] |}.
Proof. intros H. unfold prompting. cbn [cin cout prompt_loop]. rewrite H. reflexivity. Qed.

Lemma prompt_loop_skips {A} prompt (body : string -> verdict A) rejected :
  Forall (fun line => exists diagnostic, body line = Retry diagnostic) rejected ->
  forall lines out,
    prompt_loop prompt body (rejected ++ lines) out
    = prompt_loop prompt body lines
        (out ++ flat_map (retry_output prompt body) rejected).
Proof.
  induction 1 as [|input rejected [diag Hd] _ IH]; intros lines out.
  - cbn. rewrite app_nil_r. reflexivity.
  - cbn [app prompt_loop flat_map]. rewrite Hd, IH. f_equal.
    unfold retry_output at 2. rewrite Hd, <- !app_assoc. reflexivity.
Qed.



Lemma main_loop_done fuel : forall employees w z w',
  main_loop fuel employees w = Some (Done z w') -> z = 0 /\ In "5" (cin w).
Proof.
  induction fuel as [|fuel IH]; intros employees w z w' H; cbn [main_loop] in H;
    [discriminate|].
  destruct (main_iteration employees w) as [[es again] w1|w1|w1] eqn:Hit;
    try discriminate.
  pose proof (reads_forward_main_iteration _ _ _ _ Hit) as (consumed & Hc).
  destruct again.
  - apply IH in H as [Hz Hin]. split; [exact Hz|].
    rewrite Hc. apply in_or_app. right. exact Hin.
  - inversion H; subst z w'. split; [reflexivity|].
    apply main_iteration_reads in Hit as (choice & rest & Hcin & Ha & _).
    cbn [snd] in Ha. symmetry in Ha. apply negb_false_iff, String.eqb_eq in Ha.
    subst choice. rewrite Hcin. left. reflexivity.
Qed.

(** * Further properties of the code *)

(** ** Validators *)



(** X2. [isValidID] accepts exactly the non-empty texts made of ASCII
    letters and digits; its search for a blank never changes the answer,
    which is that of the pattern alone. *)
Theorem isValidID_alphanumeric id :
  isValidID id = validateId_spec id /\ isValidID id = regex_match id idRegex.
Proof.
  split; [apply isValidID_spec|].
  unfold isValidID. destruct (has_space id) eqn:Hs; [|reflexivity].
  pose proof (isValidID_spec id) as H. unfold isValidID in H. rewrite Hs in H.
  unfold validateId_spec in H. rewrite (has_space_not_alnum _ Hs), andb_false_r in H.
  symmetry. apply not_true_is_false. intros Hm.
  unfold regex_match, idRegex in Hm. apply matches_Plus_Class in Hm as [_ Hm].
  rewrite <- all_alnum_forallb, (has_space_not_alnum _ Hs) in Hm. discriminate.
Qed.

(** X3. A value that [isValidDecimal] accepts is zero or a positive normal
    double of at least [2 ^ (-7)]: never negative, never a NaN, an infinity
    or a subnormal number. *)
Theorem isValidDecimal_value_range T v :
  isValidDecimal T = Normal (Some v) -> v = dzero \/ sizeable (-59) v.
Proof.
  intros H. destruct (dlt dzero v) eqn:Hp.
  - right. eapply accepted_decimal_sizeable; eauto.
  - left. destruct (isValidDecimal_some _ _ H) as (ip & fp & Hip & Hfp & Hlen & -> & Hfin).
    unfold decimal_value in *.
    assert (Hnn : 0 <= digits_value (ip ++ fp)).
    { apply digits_value_nonneg. rewrite all_digits_app, Hfp.
      unfold digits1 in Hip. apply andb_true_iff in Hip as [_ ->]. reflexivity. }
    destruct (digits_value (ip ++ fp)) as [|p|p]; [reflexivity | | lia].
    destruct (nearest_decimal_big p (length fp) Hlen) as [Hi|Hs].
    + rewrite Hi in Hfin. discriminate.
    + destruct (sizeable_positive _ _ Hs) as (H1 & _). rewrite H1 in Hp. discriminate.
Qed.

Lemma isValidDecimal_value_range_witness :
  decimal_value "12" "5" = dzero \/ sizeable (-59) (decimal_value "12" "5").
Proof. apply (isValidDecimal_value_range "12.5"). reflexivity. Defined.

(** X4. On a text of at most 308 characters [isValidDecimal] returns: it
    refuses the text or accepts it with a value, and raises nothing. *)
Theorem isValidDecimal_short_text_returns T :
  (length T <= 308)%nat ->
  isValidDecimal T = Normal None \/ exists v, isValidDecimal T = Normal (Some v).
Proof.
  intros Hlen. pose proof (isValidDecimal_short T) as H.
  destruct (isValidDecimal T) as [[v|]|e]; [eauto | auto |].
  exfalso. exact (H e Hlen eq_refl).
Qed.

Lemma isValidDecimal_short_text_returns_witness :
  isValidDecimal "12.345" = Normal None \/
  exists v, isValidDecimal "12.345" = Normal (Some v).
Proof. apply (isValidDecimal_short_text_returns "12.345"). cbn. lia. Defined.

Lemma isValidDecimal_spec_witness :
  isValidDecimal "12.5" =
    if is_infinite (decimal_value "12" "5") then Raise out_of_range
    else Normal (Some (decimal_value "12" "5")).
Proof.
  apply (proj2 (proj2 (isValidDecimal_spec "12.5")) "12" "5");
    [reflexivity | reflexivity | reflexivity | cbn; lia].
Defined.

(** ** Prompts *)

(** X5. [getEmployeeName] skips any number of empty lines, answering each
    with the diagnostic, and returns the first line that is not empty,
    whatever it contains; the lines after it stay unread. *)
Theorem getEmployeeName_first_nonempty n name rest out :
  name <> "" ->
  getEmployeeName {| cin := repeat "" n ++ name :: rest; cout := out |}
  = Done name
      {| cin := rest;
         cout := (out ++ List.concat (repeat [Text "Enter Employee Name: ";
                                         Text "Name cannot be empty. Please try again.";
                                         Endl] n))
                 ++ [Text "Enter Employee Name: "] |}.
Proof.
  intros Hne. unfold getEmployeeName, prompting. cbn [cin cout].
  rewrite prompt_loop_skips.
  - assert (Hout : forall body,
      body = (fun name : string =>
                if negb (empty name) then Accept name
                else Retry [Text "Name cannot be empty. Please try again."; Endl]) ->
      flat_map (retry_output "Enter Employee Name: " body) (repeat "" n)
      = List.concat (repeat [Text "Enter Employee Name: ";
                             Text "Name cannot be empty. Please try again.";
                             Endl] n)).
    { intros body ->. induction n as [|n IH]; [reflexivity|].
      cbn [repeat flat_map List.concat]. rewrite IH. reflexivity. }
    rewrite (Hout _ eq_refl). cbn [prompt_loop].
    destruct name as [|c name]; [congruence|]. reflexivity.
  - induction n as [|n IH]; cbn [repeat]; constructor; [|exact IH].
    eexists. reflexivity.
Qed.

Lemma getEmployeeName_first_nonempty_witness :
  getEmployeeName {| cin := repeat "" 2 ++ "Ann" :: ["next"]; cout := [] |}
  = Done "Ann"
      {| cin := ["next"];
         cout := ([] ++ List.concat (repeat [Text "Enter Employee Name: ";
                                        Text "Name cannot be empty. Please try again.";
                                        Endl] 2))
                 ++ [Text "Enter Employee Name: "] |}.
Proof. apply (getEmployeeName_first_nonempty 2 "Ann" ["next"] []). discriminate. Defined.

(** X6. [getEmployeeId] has no retry limit: after any number of lines that
    are empty, malformed or already taken, the first line that is a
    well-formed unused identifier is returned, and the lines after it stay
    unread. *)
Theorem getEmployeeId_first_acceptable employees rejected id rest out :
  Forall (fun line => empty line = true \/ isValidID line = false \/
                      In line (map getId employees)) rejected ->
  empty id = false -> isValidID id = true -> ~ In id (map getId employees) ->
  exists out',
    getEmployeeId employees {| cin := rejected ++ id :: rest; cout := out |}
    = Done id {| cin := rest; cout := out' |}.
Proof.
  intros Hrej He Hv Hu. apply isIdUnique_spec in Hu.
  unfold getEmployeeId, prompting. cbn [cin cout].
  rewrite prompt_loop_skips.
  - cbn [prompt_loop]. rewrite He, Hv, Hu. cbn [negb]. eexists. reflexivity.
  - eapply Forall_impl; [|exact Hrej]. intros line H. cbn beta.
    destruct (empty line) eqn:E1; [eauto|].
    destruct (isValidID line) eqn:E2; [|cbn; eauto].
    destruct (isIdUnique employees line) eqn:Hq; [|cbn; eauto].
    exfalso. destruct H as [H|[H|H]]; try congruence.
    apply isIdUnique_spec in Hq. contradiction.
Qed.

Lemma getEmployeeId_first_acceptable_witness :
  exists out',
    getEmployeeId [ann] {| cin := [""; "a b"; "E1"] ++ "E2" :: ["Bo"]; cout := [] |}
    = Done "E2" {| cin := ["Bo"]; cout := out' |}.
Proof.
  apply (getEmployeeId_first_acceptable [ann] [""; "a b"; "E1"] "E2" ["Bo"] []).
  - apply Forall_cons; [left; reflexivity|].
    apply Forall_cons; [right; left; reflexivity|].
    apply Forall_cons; [right; right; left; reflexivity|].
    apply Forall_nil.
  - reflexivity.
  - reflexivity.
  - cbn. intros [H|[]]. discriminate H.
Defined.

(** X7. The count [getValidNumericInput] returns was read from an entered
    line that [isValidInteger] accepted, and lies between 0 and [INT_MAX]. *)
Theorem getValidNumericInput_range prompt w value w' :
  getValidNumericInput prompt w = Done value w' ->
  (exists input, In input (cin w) /\ isValidInteger input = Some value) /\
  0 <= value <= INT_MAX.
Proof.
  intros H. apply getValidNumericInput_done in H as ((input & Hin & Hi) & Hv & _).
  split; [eauto|]. apply isValidInteger_spec in Hi as (_ & _ & Hr).
  unfold in_int_range in Hr. apply andb_true_iff in Hr as [_ Hr].
  apply Z.leb_le in Hr. lia.
Qed.

Lemma getValidNumericInput_range_witness :
  (exists input, In input ["-1"; "x"; "3"] /\ isValidInteger input = Some 3) /\
  0 <= 3 <= INT_MAX.
Proof.
  apply (getValidNumericInput_range "Enter Number of Projects Completed: "
           (typed ["-1"; "x"; "3"]) 3
           {| cin := [];
              cout := [Text "Enter Number of Projects Completed: ";
                       Text "Value cannot be negative. Please try again."; Endl;
                       Text "Enter Number of Projects Completed: ";
                       Text "Invalid input. Please enter a valid number."; Endl;
                       Text "Enter Number of Projects Completed: "] |}).
  reflexivity.
Defined.

(** ** The add operations *)

(** X8. An [add] that returns has appended exactly one record; the record
    satisfies what the prompts guarantee, its identifier was unused before
    and is taken afterwards, and at least one line was read. *)
Theorem add_appends_one_record employees w employees' w' :
  addFullTimeEmployee employees w = Done employees' w' \/
  addPartTimeEmployee employees w = Done employees' w' \/
  addContractualEmployee employees w = Done employees' w' ->
  exists emp,
    employees' = employees ++ [emp] /\ well_formed emp /\
    isIdUnique employees (getId emp) = true /\
    isIdUnique employees' (getId emp) = false /\
    (List.length (cin w') < List.length (cin w))%nat.
Proof.
  assert (Htaken : forall emp, isIdUnique (employees ++ [emp]) (getId emp) = false).
  { intros emp. apply not_true_is_false. rewrite isIdUnique_spec. intros H. apply H.
    rewrite map_app. apply in_or_app. right. left. reflexivity. }
  intros [H | [H | H]].
  - apply addFullTimeEmployee_done in H as (id & name & s & -> & Hu & _ & Hs & L).
    exists (FullTimeEmployee id name s). repeat split; auto.
  - apply addPartTimeEmployee_done in H
      as (id & name & a & b & -> & Hu & _ & Ha & _ & Hb & L).
    exists (PartTimeEmployee id name a b). repeat split; auto.
  - apply addContractualEmployee_done in H
      as (id & name & a & n & -> & Hu & _ & Ha & Hn & L).
    exists (ContractualEmployee id name a n). repeat split; auto.
Qed.

Lemma add_appends_one_record_witness :
  exists emp,
    [ann; bo] = [ann] ++ [emp] /\ well_formed emp /\
    isIdUnique [ann] (getId emp) = true /\
    isIdUnique [ann; bo] (getId emp) = false /\
    (List.length (@nil string) < List.length ["E2"; "Bo"; "10.5"; "8"])%nat.
Proof.
  apply (add_appends_one_record [ann] (typed ["E2"; "Bo"; "10.5"; "8"]) [ann; bo]
           {| cin := [];
              cout := [Text "Enter Employee ID: "; Text "Enter Employee Name: ";
                       Text "Enter Hourly Wage: $";
                       Text "Enter Number of Hours Worked: ";
                       Text "Part-time employee added successfully!"; Endl] |}).
  right. left. reflexivity.
Defined.

(** X9. Given, on consecutive lines, an unused well-formed identifier, a
    non-empty name and acceptable numbers, each [add] reads exactly those
    lines, shows its prompts and its confirmation, and appends the record
    built from them. *)
Theorem add_on_acceptable_lines employees id name rest out :
  empty id = false -> isValidID id = true -> ~ In id (map getId employees) ->
  empty name = false ->
  (forall T salary,
     isValidDecimal T = Normal (Some salary) -> dlt dzero salary = true ->
     addFullTimeEmployee employees {| cin := id :: name :: T :: rest; cout := out |}
     = Done (employees ++ [FullTimeEmployee id name salary])
         {| cin := rest;
            cout := out ++ [Text "Enter Employee ID: "; Text "Enter Employee Name: ";
                            Text "Enter Monthly Salary: $";
                            Text "Full-time employee added successfully!"; Endl] |}) /\
  (forall T1 T2 hourlyWage hoursWorked,
     isValidDecimal T1 = Normal (Some hourlyWage) -> dlt dzero hourlyWage = true ->
     isValidDecimal T2 = Normal (Some hoursWorked) -> dlt dzero hoursWorked = true ->
     addPartTimeEmployee employees
       {| cin := id :: name :: T1 :: T2 :: rest; cout := out |}
     = Done (employees ++ [PartTimeEmployee id name hourlyWage hoursWorked])
         {| cin := rest;
            cout := out ++ [Text "Enter Employee ID: "; Text "Enter Employee Name: ";
                            Text "Enter Hourly Wage: $";
                            Text "Enter Number of Hours Worked: ";
                            Text "Part-time employee added successfully!"; Endl] |}) /\
  (forall T N paymentPerProject projectsCompleted,
     isValidDecimal T = Normal (Some paymentPerProject) ->
     dlt dzero paymentPerProject = true ->
     isValidInteger N = Some projectsCompleted -> 0 <= projectsCompleted ->
     addContractualEmployee employees
       {| cin := id :: name :: T :: N :: rest; cout := out |}
     = Done (employees ++ [ContractualEmployee id name paymentPerProject projectsCompleted])
         {| cin := rest;
            cout := out ++ [Text "Enter Employee ID: "; Text "Enter Employee Name: ";
                            Text "Enter Payment Per Project: $";
                            Text "Enter Number of Projects Completed: ";
                            Text "Contractual employee added successfully!"; Endl] |}).
Proof.
  intros He Hv Hu Hn. apply isIdUnique_spec in Hu.
  assert (Hid : forall lines o,
    getEmployeeId employees {| cin := id :: lines; cout := o |}
    = Done id {| cin := lines; cout := o ++ [Text "Enter Employee ID: "] |}).
  { intros. apply prompting_accepts. rewrite He, Hv, Hu. reflexivity. }
  assert (Hname : forall lines o,
    getEmployeeName {| cin := name :: lines; cout := o |}
    = Done name {| cin := lines; cout := o ++ [Text "Enter Employee Name: "] |}).
  { intros. apply prompting_accepts. rewrite Hn. reflexivity. }
  assert (Hdec : forall prompt T v lines o,
    isValidDecimal T = Normal (Some v) -> dlt dzero v = true ->
    getValidDecimalInput prompt {| cin := T :: lines; cout := o |}
    = Done v {| cin := lines; cout := o ++ [Text prompt] |}).
  { intros prompt T v lines o H1 H2. apply prompting_accepts. rewrite H1, H2. reflexivity. }
  assert (Hint : forall prompt N n lines o,
    isValidInteger N = Some n -> 0 <= n ->
    getValidNumericInput prompt {| cin := N :: lines; cout := o |}
    = Done n {| cin := lines; cout := o ++ [Text prompt] |}).
  { intros prompt N n lines o H1 H2. apply prompting_accepts.
    apply Z.leb_le in H2. rewrite H1, H2. reflexivity. }
  split; [|split].
  - intros T salary H1 H2. unfold addFullTimeEmployee, bind.
    rewrite Hid, Hname, (Hdec _ _ _ _ _ H1 H2). cbn [print ret cin cout].
    rewrite <- !app_assoc. reflexivity.
  - intros T1 T2 a b H1 H2 H3 H4. unfold addPartTimeEmployee, bind.
    rewrite Hid, Hname, (Hdec _ _ _ _ _ H1 H2), (Hdec _ _ _ _ _ H3 H4).
    cbn [print ret cin cout]. rewrite <- !app_assoc. reflexivity.
  - intros T N a n H1 H2 H3 H4. unfold addContractualEmployee, bind.
    rewrite Hid, Hname, (Hdec _ _ _ _ _ H1 H2), (Hint _ _ _ _ _ H3 H4).
    cbn [print ret cin cout]. rewrite <- !app_assoc. reflexivity.
Qed.

Lemma add_on_acceptable_lines_witness :
  addContractualEmployee [ann] {| cin := "E3" :: "Cy" :: "200" :: "3" :: []; cout := [] |}
  = Done ([ann] ++ [ContractualEmployee "E3" "Cy" (decimal_value "200" "") 3])
      {| cin := [];
         cout := [] ++ [Text "Enter Employee ID: "; Text "Enter Employee Name: ";
                        Text "Enter Payment Per Project: $";
                        Text "Enter Number of Projects Completed: ";
                        Text "Contractual employee added successfully!"; Endl] |}.
Proof.
  refine (proj2 (proj2 (add_on_acceptable_lines [ann] "E3" "Cy" [] [] _ _ _ _))
            "200" "3" (decimal_value "200" "") 3 _ _ _ _).
  - reflexivity.
  - reflexivity.
  - cbn. intros [H|[]]. discriminate H.
  - reflexivity.
  - reflexivity.
  - reflexivity.
  - reflexivity.
  - lia.
Defined.

(** ** The report *)

(** X15. Every record of the registry is shown in the report with its
    identifier, its name and its pay; rendering reads no input. *)
Theorem report_shows_every_record employees w emp :
  In emp employees ->
  exists w',
    displayPayrollReport employees w = Done tt w' /\ cin w' = cin w /\
    In (Text (getId emp)) (cout w') /\
    In (Text (getName emp)) (cout w') /\
    In (Num (calculateSalary emp)) (cout w').
Proof.
  intros Hin. destruct employees as [|e0 rest]; [destruct Hin|].
  eexists. split; [reflexivity|]. cbn [cin cout]. split; [reflexivity|].
  rewrite report_loop_blocks.
  assert (Hblock : forall x, In x (report_block emp) ->
                   In x ((cout w ++ [Text "------ Employee Payroll Report ------"; Endl])
                         ++ flat_map report_block (e0 :: rest))).
  { intros x Hx. apply in_or_app. right. apply in_flat_map. eauto. }
  repeat split; apply Hblock; destruct emp; cbn;
    repeat first [left; reflexivity | right].
Qed.

Lemma report_shows_every_record_witness :
  exists w',
    displayPayrollReport sample_registry (typed []) = Done tt w' /\
    cin w' = cin (typed []) /\
    In (Text (getId cy)) (cout w') /\
    In (Text (getName cy)) (cout w') /\
    In (Num (calculateSalary cy)) (cout w').
Proof.
  apply (report_shows_every_record sample_registry (typed []) cy).
  cbn. auto.
Defined.

(** ** The driver *)

(** X10. One pass of the driver keeps the registry within the reachable
    states and changes it, if at all, by appending one record: nothing is
    removed or rewritten. *)
Theorem main_iteration_registry employees w es again w' :
  main_iteration employees w = Done (es, again) w' ->
  (reachable employees -> reachable es) /\
  (es = employees \/ exists emp, es = employees ++ [emp]).
Proof.
  unfold main_iteration. intros H.
  apply bind_done in H as (u & w1 & _ & H).
  apply bind_done in H as (choice & w2 & _ & H).
  apply bind_done in H as (es' & w3 & Hd & H). inversion H; subst es' again w3; clear H.
  revert Hd.
  destruct (isValidMenuNumber choice 1 5) as [option|].
  - apply (menu_switch_cases
             (fun m => m w2 = Done es w' ->
                (reachable employees -> reachable es) /\
                (es = employees \/ exists emp, es = employees ++ [emp]))).
    + intros Hd. split; [intros Hr; eapply reach_full; eauto|].
      apply addFullTimeEmployee_done in Hd as (? & ? & ? & -> & _). eauto.
    + intros Hd. split; [intros Hr; eapply reach_part; eauto|].
      apply addPartTimeEmployee_done in Hd as (? & ? & ? & ? & -> & _). eauto.
    + intros Hd. split; [intros Hr; eapply reach_contractual; eauto|].
      apply addContractualEmployee_done in Hd as (? & ? & ? & ? & -> & _). eauto.
    + intros Hd. apply bind_done in Hd as (? & ? & _ & Hd). inversion Hd; subst. auto.
    + intros Hd. apply bind_done in Hd as (? & ? & _ & Hd). inversion Hd; subst. auto.
    + intros Hd. inversion Hd; subst. auto.
  - intros Hd. apply bind_done in Hd as (? & ? & _ & Hd). inversion Hd; subst. auto.
Qed.

Lemma main_iteration_registry_witness :
  (reachable [ann] -> reachable [ann; bo]) /\
  ([ann; bo] = [ann] \/ exists emp, [ann; bo] = [ann] ++ [emp]).
Proof.
  eapply (main_iteration_registry [ann] (typed ["2"; "E2"; "Bo"; "10.5"; "8"])
            [ann; bo] true).
  reflexivity.
Defined.

(** X11. When [main] returns, the exit code is 0 and one of the lines it
    read was the text ["5"]. *)
Theorem main_returns_zero_after_five lines z w :
  main lines = Some (Done z w) -> z = 0 /\ In "5" lines.
Proof.
  intros H. unfold main in H. apply main_loop_done in H. exact H.
Qed.

Lemma main_returns_zero_after_five_witness : 0 = 0 /\ In "5" ["6"; "5"; "1"].
Proof.
  eapply (main_returns_zero_after_five ["6"; "5"; "1"] 0).
  reflexivity.
Defined.

(** X12. If every line entered has at most 308 characters, reading them
    never ends the program by an uncaught exception. *)
Theorem main_never_terminated_on_short_lines lines :
  Forall (fun line => (length line <= 308)%nat) lines ->
  forall w, main lines <> Some (Terminated w).
Proof.
  intros Hs w. unfold main. apply main_loop_never_terminated. exact Hs.
Qed.

Lemma main_never_terminated_on_short_lines_witness :
  main ["1"; "E1"; "Ann"; "1000.00"; "5"] <> Some (Terminated (typed [])).
Proof.
  apply (main_never_terminated_on_short_lines ["1"; "E1"; "Ann"; "1000.00"; "5"]).
  repeat (apply Forall_cons; [cbn; lia|]). apply Forall_nil.
Defined.

Lemma main_iteration_exit_witness :
  false = false <-> exists rest, cin (typed ["5"; "1"]) = "5" :: rest.
Proof.
  eapply (main_iteration_exit [] (typed ["5"; "1"]) [] false).
  reflexivity.
Defined.

Lemma main_iteration_rejects_witness :
  main_iteration [] {| cin := "6" :: ["5"]; cout := [] |}
  = Done ([], true)
      {| cin := ["5"];
         cout := ([] ++ menu)
                 ++ [Text "Invalid choice. Please enter a number between 1 and 5.";
                     Endl] |}.
Proof. apply (main_iteration_rejects [] "6" ["5"] []). reflexivity. Defined.
